(** * cian_bot: the listing deduplication, filtering and notification engine

    A shallow embedding of [bot.py] (class [CianBot] and the two module-level
    filters) and the properties of its specification.

    Python objects are modelled as follows.
    - A dict is a [gmap]; a set is a [gset]. Python iterates a dict in
      insertion order; the embedding iterates in the order of [map_to_list].
      No statement below depends on that order.
    - [collections.deque] is a [list]; [append] adds at the end, [popleft]
      removes the head.
    - A method is a computation in the monad [M]: it threads the bot object
      and the outside world (log, transport calls) and either returns or
      raises. A raised exception keeps the state reached so far, as in Python.
    - The network, the messaging transport and the file system are oracles
      gathered in [Env]. *)

From Stdlib Require Import ZArith String List Lia.
From stdpp Require Import base decidable countable strings gmap sets list pretty.
From stdpp Require Import sorting.

Local Open Scope Z_scope.
Local Open Scope string_scope.
Local Open Scope list_scope.

(** ** Keys

    Listing ids and chat ids are ints while the bot runs; [json.dump] writes
    dict keys as strings and [json.load] returns them as strings. A key is
    therefore an int or a str, and [1] and ["1"] are different keys. *)

Inductive pykey : Type :=
  | KInt (n : Z)
  | KStr (s : string).

#[global] Instance pykey_eq_dec : EqDecision pykey.
Proof. solve_decision. Defined.

Definition pykey_to_sum (k : pykey) : Z + string :=
  match k with KInt n => inl n | KStr s => inr s end.

Definition pykey_of_sum (x : Z + string) : pykey :=
  match x with inl n => KInt n | inr s => KStr s end.

#[global] Instance pykey_countable : Countable pykey.
Proof.
  apply (inj_countable' pykey_to_sum pykey_of_sum).
  intros [n|s]; reflexivity.
Defined.

#[global] Instance KStr_inj : Inj (=) (=) KStr.
Proof. intros a b H; congruence. Qed.

(** The key [json.dump] writes for a dict key: [str(n)] for an int, the string
    itself for a str. *)
Definition key_str (k : pykey) : string :=
  match k with
  | KInt n => pretty n
  | KStr s => s
  end.

(** ** JSON values *)

Unset Elimination Schemes.
Inductive json : Type :=
  | JNull
  | JBool (b : bool)
  | JInt (n : Z)
  | JStr (s : string)
  | JList (l : list json)
  | JObj (members : list (string * json)).
Set Elimination Schemes.

Definition key_json (k : pykey) : json :=
  match k with
  | KInt n => JInt n
  | KStr s => JStr s
  end.

(** ** Listings

    [cian_parser.FlatListItem] is not part of the sources. The record has the
    attributes [bot.py] reads, numeric ones as Python ints. *)

Record Flat : Type := mkFlat {
  flat_id : pykey;
  price : Z;
  rooms : Z;
  bedrooms : Z;
  deposit : Z;
  fee : Z;
  bonus : Z;
  metros : list string;
  photos : list string;
  pdf_link : string
}.

(** [attr.asdict] of a listing, the form in which [save] writes it. *)
Definition flat_asdict (f : Flat) : json :=
  JObj [ ("id", key_json (flat_id f));
         ("price", JInt (price f));
         ("rooms", JInt (rooms f));
         ("bedrooms", JInt (bedrooms f));
         ("deposit", JInt (deposit f));
         ("fee", JInt (fee f));
         ("bonus", JInt (bonus f));
         ("metros", JList (map JStr (metros f)));
         ("photos", JList (map JStr (photos f)));
         ("pdf_link", JStr (pdf_link f)) ].

(** A value of [self.flatlist]: the object [handle_new_flat] stored, or the
    dict [json.load] returned for it. *)
Inductive stored : Type :=
  | Live (f : Flat)
  | Loaded (j : json).

Definition stored_json (v : stored) : json :=
  match v with
  | Live f => flat_asdict f
  | Loaded j => j
  end.

(** ** Messages *)

(** The dict [flat_to_message] builds: [text] and, when the listing has a
    photo, [photo]. *)
Record Template : Type := mkTemplate {
  t_text : string;
  t_photo : option string
}.

(** A queued message: the template with its [chat_id]. *)
Record Msg : Type := mkMsg {
  chat_id : pykey;
  text : string;
  photo : option string
}.

Definition address (u : pykey) (t : Template) : Msg :=
  {| chat_id := u; text := t_text t; photo := t_photo t |}.

(** ** The bot object *)

Record CianBot : Type := mkBot {
  flatlist : gmap pykey stored;
  flat_details : gmap pykey json;
  viewed : gmap pykey (gset pykey);
  scheduled_messages : list Msg;
  observed_urls : list string
}.

(** [CianBot.__init__] *)
Definition init : CianBot :=
  {| flatlist := ∅; flat_details := ∅; viewed := ∅;
     scheduled_messages := []; observed_urls := [] |}.

(** ** The outside world *)

Inductive exn : Type :=
  | ZeroDivisionError
  | OverflowError
  | AttributeError
  | NameError
  | TypeError
  | External (what : string).

(** One constructor per logging statement of [bot.py]. *)
Inductive LogRecord : Type :=
  | DebugPriceTest (i : pykey) (p r : Z)
  | DebugMetroTest (i : pykey) (ms : list string)
  | DebugCouldntPass (i : pykey) (filter_name : string)
  | DebugNotifying (u : pykey) (body : string)
  | InfoConnected (u : pykey)
  | InfoAsksForMessages (u : pykey)
  | InfoSendingAsRequested
  | InfoMessagesSent
  | InfoNoUrls
  | InfoFetching (url : string)
  | InfoStatus (url : string) (code : Z)
  | InfoCycleMessagesSent
  | FatalFailedFetching (url : string) (e : exn)
  | InfoSavingBackup
  | InfoSavedBackup.

(** A call into the transport. *)
Inductive Call : Type :=
  | send_photo (u : pykey) (ph : string) (caption : string)
  | send_message (u : pykey) (body : string).

(** [log]: the records written so far. [sent]: the transport calls made so
    far, failed ones included. [enqueued] is a ghost trace: one pair
    (recipient, listing id) for every [scheduled_messages.append]; a queued
    message does not carry the id of its listing. *)
Record World : Type := mkWorld {
  log : list LogRecord;
  sent : list Call;
  enqueued : list (pykey * pykey)
}.

Definition world0 : World := {| log := []; sent := []; enqueued := [] |}.

(** ** The monad of methods *)

Inductive outcome (A : Type) : Type :=
  | Ret (a : A)
  | Raise (e : exn).
Arguments Ret {A} a.
Arguments Raise {A} e.

Definition Sys : Type := CianBot * World.

Definition M (A : Type) : Type := Sys -> Sys * outcome A.

Definition ret {A} (a : A) : M A := fun s => (s, Ret a).

Definition raise {A} (e : exn) : M A := fun s => (s, Raise e).

Definition bind {A B} (m : M A) (k : A -> M B) : M B :=
  fun s =>
    match m s with
    | (s', Ret a) => k a s'
    | (s', Raise e) => (s', Raise e)
    end.

Notation "x <- m ;; k" := (bind m (fun x => k))
  (at level 100, m at next level, right associativity).
Notation "m ;; k" := (bind m (fun _ => k))
  (at level 100, right associativity).

(** [try: m except Exception as e: h e] *)
Definition try_except (m : M unit) (h : exn -> M unit) : M unit :=
  fun s =>
    match m s with
    | (s', Ret a) => (s', Ret a)
    | (s', Raise e) => h e s'
    end.

(** [for x in xs: body x], over a list fixed when the loop starts. *)
Fixpoint for_ {A} (xs : list A) (body : A -> M unit) : M unit :=
  match xs with
  | [] => ret tt
  | x :: xs' => body x ;; for_ xs' body
  end.

Definition gets {A} (f : CianBot -> A) : M A := fun s => (s, Ret (f (fst s))).

Definition modify (f : CianBot -> CianBot) : M unit :=
  fun s => ((f (fst s), snd s), Ret tt).

Definition lift {A} (o : outcome A) : M A := fun s => (s, o).

Definition logger (r : LogRecord) : M unit :=
  fun s =>
    ((fst s, {| log := log (snd s) ++ [r];
                sent := sent (snd s);
                enqueued := enqueued (snd s) |}), Ret tt).

Definition set_flatlist (f : gmap pykey stored -> gmap pykey stored) (b : CianBot) : CianBot :=
  {| flatlist := f (flatlist b); flat_details := flat_details b; viewed := viewed b;
     scheduled_messages := scheduled_messages b; observed_urls := observed_urls b |}.

Definition set_viewed (f : gmap pykey (gset pykey) -> gmap pykey (gset pykey)) (b : CianBot)
  : CianBot :=
  {| flatlist := flatlist b; flat_details := flat_details b; viewed := f (viewed b);
     scheduled_messages := scheduled_messages b; observed_urls := observed_urls b |}.

Definition set_scheduled_messages (f : list Msg -> list Msg) (b : CianBot) : CianBot :=
  {| flatlist := flatlist b; flat_details := flat_details b; viewed := viewed b;
     scheduled_messages := f (scheduled_messages b); observed_urls := observed_urls b |}.

(** [self.scheduled_messages.append(msg)], for a message about listing [i]. *)
Definition append_message (msg : Msg) (i : pykey) : M unit :=
  fun s =>
    ((set_scheduled_messages (fun q => q ++ [msg]) (fst s),
      {| log := log (snd s);
         sent := sent (snd s);
         enqueued := enqueued (snd s) ++ [(chat_id msg, i)] |}), Ret tt).

(** [self.viewed[u]] on the [defaultdict(set)]: a missing key is inserted
    with the empty set. *)
Definition viewed_default (u : pykey) : M (gset pykey) :=
  fun s =>
    match viewed (fst s) !! u with
    | Some vs => (s, Ret vs)
    | None => ((set_viewed (fun v => <[u := ∅]> v) (fst s), snd s), Ret ∅)
    end.

(** ** Persisted form

    [CianStateSerializable] after [attr.asdict], as [json.dump] writes it: a
    JSON object is the list of its members, keys are strings, a set has
    become a list. *)

Record CianStateSerializable : Type := mkSer {
  s_flatlist : list (string * json);
  s_flat_details : list (string * json);
  s_viewed : list (string * list pykey);
  s_observed_urls : list string;
  s_scheduled_messages : list Msg
}.

(** The dict [json.load] builds from the members of an object: of two members
    with one name the later wins. *)
Definition json_object {V} (members : list (string * V)) : gmap string V :=
  list_to_map (reverse members).

(** ** Collaborators *)

Record Env : Type := mkEnv {
  (** [s.get(url)]: the status code and the text of the response. *)
  http_get : string -> outcome (Z * string);
  (** [cian_parser.get_flatlist(html)] *)
  get_flatlist : string -> outcome (list Flat);
  (** [context.bot.send_photo] and [context.bot.send_message]: the failure,
      if any, of a call, given the calls made before it. *)
  transport : list Call -> Call -> option exn;
  (** Creating the directory and writing [state.json] under a base path. *)
  write_state : string -> CianStateSerializable -> option exn
}.

(** ** Filters *)

Definition METRO_names : list string :=
  [ "Достоевская"; "Проспект Мира"; "Сухаревская"; "Цветной бульвар";
    "Трубная"; "Чеховская"; "Пушкинская"; "Кузнецкий мост"; "Лубянка";
    "Чистые пруды"; "Красные Ворота"; "Тургеневская"; "Сретенский бульвар";
    "Китай-город"; "Чкаловская"; "Маяковская"; "Белорусская"; "Менделеевская";
    "Новослободская" ].

Definition METRO_BLACKLIST_names : list string :=
  [ "Электрозаводская"; "Бауманская"; "Солнцево" ].

(** The least magnitude of a quotient of ints that true division cannot
    return as a double: halfway between the largest double and [2^1024]. *)
Definition DBL_OVERFLOW : Z := 2 ^ 1024 - 2 ^ 970.

(** [p / r <= 35000] for ints [p] and [r]. True division returns the double
    nearest to the quotient (ties to even). The next double above [35000] is
    [35000 + 2^-37], so the double is at most [35000] exactly when the
    quotient is at most [35000 + 2^-38]. *)
Definition ppp_le_35000 (p r : Z) : outcome bool :=
  if decide (r = 0) then Raise ZeroDivisionError
  else if decide (DBL_OVERFLOW * Z.abs r <= Z.abs p) then Raise OverflowError
  else if decide (0 < r)
       then Ret (bool_decide (p * 2 ^ 38 <= (35000 * 2 ^ 38 + 1) * r))
       else Ret (bool_decide ((35000 * 2 ^ 38 + 1) * r <= p * 2 ^ 38)).

(** A filter with its [__name__]. *)
Record Filter : Type := mkFilter {
  f_name : string;
  f_run : Flat -> M bool
}.

Definition newline : string := String (Ascii.ascii_of_nat 10) EmptyString.

Section Engine.

(** [str.lower] and [repr] on a str, both defined by tables of Unicode. *)
Variable lower : string -> string.
Variable repr : string -> string.

Definition METRO : list string := map lower METRO_names.
Definition METRO_BLACKLIST : list string := map lower METRO_BLACKLIST_names.

Definition filter_price_per_person (flat : Flat) : M bool :=
  ok <- lift (ppp_le_35000 (price flat) (rooms flat)) ;;
  (if negb ok
   then logger (DebugPriceTest (flat_id flat) (price flat) (rooms flat))
   else ret tt) ;;
  ret ok.

Definition metro_test (flat : Flat) : bool :=
  existsb (fun m => bool_decide (lower m ∈ METRO)) (metros flat)
  && negb (existsb (fun m => bool_decide (lower m ∈ METRO_BLACKLIST)) (metros flat)).

Definition filter_metro (flat : Flat) : M bool :=
  let ok := metro_test flat in
  (if negb ok
   then logger (DebugMetroTest (flat_id flat) (metros flat))
   else ret tt) ;;
  ret ok.

(** [CianBot.filters] *)
Definition filters : list Filter :=
  [ {| f_name := "filter_price_per_person"; f_run := filter_price_per_person |};
    {| f_name := "filter_metro"; f_run := filter_metro |} ].

(** [asdict] of the state and [from_directory] on the content of
    [state.json]. *)
Definition asdict_state (b : CianBot) : CianStateSerializable :=
  {| s_flatlist :=
       map (fun kv => (key_str (fst kv), stored_json (snd kv))) (map_to_list (flatlist b));
     s_flat_details :=
       map (fun kv => (key_str (fst kv), snd kv)) (map_to_list (flat_details b));
     s_viewed :=
       map (fun kv => (key_str (fst kv), elements (snd kv))) (map_to_list (viewed b));
     s_observed_urls := observed_urls b;
     s_scheduled_messages := scheduled_messages b |}.

Definition save (env : Env) (basepath : string) : M unit :=
  b <- gets (fun b => b) ;;
  match write_state env basepath (asdict_state b) with
  | None => ret tt
  | Some e => raise e
  end.

Definition from_directory (state : CianStateSerializable) : CianBot :=
  {| flatlist := kmap KStr (Loaded <$> json_object (s_flatlist state));
     flat_details := kmap KStr (json_object (s_flat_details state));
     viewed := kmap KStr (list_to_set <$> json_object (s_viewed state));
     scheduled_messages := s_scheduled_messages state;
     observed_urls := s_observed_urls state |}.

(** [start]: [u] is [update.message.chat_id]. *)
Definition start (u : pykey) : M unit :=
  modify (set_viewed (fun v => <[u := ∅]> v)) ;;
  logger (InfoConnected u).

Definition flat_to_message (flat : Flat) : Template :=
  let shown :=
    filter (fun kv => negb (snd kv =? 0)%Z)
      [ ("Price", price flat); ("deposit", deposit flat);
        ("fee", fee flat); ("bonus", bonus flat) ] in
  {| t_text :=
       String.concat ("." ++ newline)%string
         [ pdf_link flat;
           String.concat ", " (map (fun kv => (fst kv ++ " " ++ pretty (snd kv))%string) shown);
           (pretty (bedrooms flat) ++ " rooms")%string;
           ("[" ++ String.concat ", " (map repr (metros flat)) ++ "]")%string ];
     t_photo := head (photos flat) |}.

(** The loop of [flat_ok] over a list of filters. *)
Fixpoint run_filters (fs : list Filter) (flat : Flat) : M bool :=
  match fs with
  | [] => ret true
  | f :: fs' =>
      ok <- f_run f flat ;;
      if ok then run_filters fs' flat
      else (logger (DebugCouldntPass (flat_id flat) (f_name f)) ;; ret false)
  end.

Definition flat_ok (flat : Flat) : M bool := run_filters filters flat.

(** The body of the loop of [handle_new_flat] for recipient [u], listing id
    [i] and the message [msg] of the listing. [copy.deepcopy] gives every
    recipient a dict of its own. *)
Definition notify (i : pykey) (msg : Template) (u : pykey) : M unit :=
  vs <- gets (fun b => default ∅ (viewed b !! u)) ;;
  if bool_decide (i ∈ vs) then ret tt
  else
    append_message (address u msg) i ;;
    modify (set_viewed (fun v => <[u := vs ∪ {[i]}]> v)).

Definition handle_new_flat (flat : Flat) : M unit :=
  known <- gets (fun b => bool_decide (is_Some (flatlist b !! flat_id flat))) ;;
  if (known : bool) then ret tt
  else
    modify (set_flatlist (fun m => <[flat_id flat := Live flat]> m)) ;;
    ok <- flat_ok flat ;;
    if negb ok then ret tt
    else
      let msg := flat_to_message flat in
      us <- gets (fun b => map fst (map_to_list (viewed b))) ;;
      for_ us (notify (flat_id flat) msg).

(** One call of [context.bot]. *)
Definition transport_call (env : Env) (c : Call) : M unit :=
  fun s =>
    let s' := (fst s, {| log := log (snd s);
                         sent := sent (snd s) ++ [c];
                         enqueued := enqueued (snd s) |}) in
    match transport env (sent (snd s)) c with
    | None => (s', Ret tt)
    | Some e => (s', Raise e)
    end.

Definition call_of (msg : Msg) : Call :=
  match photo msg with
  | Some ph => send_photo (chat_id msg) ph (text msg)
  | None => send_message (chat_id msg) (text msg)
  end.

(** The [while] loop of [send_messages]. Only [popleft] changes the deque
    inside the loop, so the loop runs once per message of the deque it
    starts with, [q]. *)
Fixpoint send_loop (env : Env) (q : list Msg) : M unit :=
  match q with
  | [] => ret tt
  | msg :: rest =>
      modify (set_scheduled_messages (fun _ => rest)) ;;
      logger (DebugNotifying (chat_id msg) (text msg)) ;;
      transport_call env (call_of msg) ;;
      send_loop env rest
  end.

Definition send_messages (env : Env) : M unit :=
  q <- gets scheduled_messages ;;
  send_loop env q.

(** In [fetch_messages] the loop variable [f] is a key of [self.flatlist],
    an int or a str: [f.id] and the attributes [flat_to_message] reads raise
    [AttributeError]. The name [flat] is bound nowhere: [NameError]. The
    call [self.send_messages()] lacks the argument [context]: [TypeError]. *)
Definition key_attr {A} (f : pykey) (name : string) : M A := raise AttributeError.

Definition unbound_name {A} (name : string) : M A := raise NameError.

Definition send_messages_without_context : M unit := raise TypeError.

Definition fetch_messages (u : pykey) : M unit :=
  logger (InfoAsksForMessages u) ;;
  keys <- gets (fun b => map fst (map_to_list (flatlist b))) ;;
  for_ keys (fun f =>
    fid <- key_attr f "id" ;;
    vs <- viewed_default u ;;
    if bool_decide ((fid : pykey) ∈ vs) then ret tt
    else
      flat <- unbound_name "flat" ;;
      ok <- flat_ok flat ;;
      if negb ok then ret tt
      else
        link <- key_attr f "pdf_link" ;;
        append_message (address u {| t_text := link; t_photo := None |}) fid) ;;
  logger InfoSendingAsRequested ;;
  send_messages_without_context ;;
  logger InfoMessagesSent.

(** The body of the [try] block of [fetch_cian], for one URL. *)
Definition fetch_url_try (env : Env) (url : string) : M unit :=
  logger (InfoFetching url) ;;
  res <- lift (http_get env url) ;;
  logger (InfoStatus url (fst res)) ;;
  flats <- lift (get_flatlist env (snd res)) ;;
  for_ flats handle_new_flat ;;
  send_messages env ;;
  logger InfoCycleMessagesSent.

(** One iteration of the loop of [fetch_cian]: the [try] block and its
    [except Exception] handler. *)
Definition fetch_url (env : Env) (url : string) : M unit :=
  try_except (fetch_url_try env url)
             (fun e => logger (FatalFailedFetching url e)).

Definition fetch_urls (env : Env) (urls : list string) : M unit :=
  for_ urls (fetch_url env).

Definition fetch_cian (env : Env) : M unit :=
  urls <- gets observed_urls ;;
  if bool_decide (length urls = 0%nat) then logger InfoNoUrls
  else
    fetch_urls env urls ;;
    logger InfoSavingBackup ;;
    save env ".cian-backup" ;;
    logger InfoSavedBackup.

(** ** Operations as data, for statements about sequences of calls

    An exception that leaves a handler is caught by the dispatcher of the
    transport library; the bot object lives on in the state it has reached. *)

Inductive Op : Type :=
  | HandleNewFlat (flat : Flat)
  | FetchMessages (u : pykey)
  | Start (u : pykey)
  | SendMessages (env : Env)
  | FetchCian (env : Env).

Definition step (o : Op) : M unit :=
  match o with
  | HandleNewFlat flat => handle_new_flat flat
  | FetchMessages u => fetch_messages u
  | Start u => start u
  | SendMessages env => send_messages env
  | FetchCian env => fetch_cian env
  end.

Fixpoint run (ops : list Op) (s : Sys) : Sys :=
  match ops with
  | [] => s
  | o :: ops' => run ops' (fst (step o s))
  end.

(** ** What the filters compute *)

Definition price_test (flat : Flat) : outcome bool :=
  ppp_le_35000 (price flat) (rooms flat).

(** The conjunction of the two tests, the second evaluated only when the
    first holds. *)
Definition accepts (flat : Flat) : outcome bool :=
  match price_test flat with
  | Ret true => Ret (metro_test flat)
  | Ret false => Ret false
  | Raise e => Raise e
  end.

Definition filters_log (flat : Flat) : list LogRecord :=
  match price_test flat with
  | Raise _ => []
  | Ret false =>
      [ DebugPriceTest (flat_id flat) (price flat) (rooms flat);
        DebugCouldntPass (flat_id flat) "filter_price_per_person" ]
  | Ret true =>
      if metro_test flat then []
      else [ DebugMetroTest (flat_id flat) (metros flat);
             DebugCouldntPass (flat_id flat) "filter_metro" ]
  end.

(** Among [us], the recipients whose notified set lacks [i]. *)
Definition pending (i : pykey) (v : gmap pykey (gset pykey)) (us : list pykey) : list pykey :=
  filter (fun u => i ∉ default ∅ (v !! u)) us.

(** The recipients [handle_new_flat] enqueues a message for. *)
Definition recipients_of (i : pykey) (v : gmap pykey (gset pykey)) : list pykey :=
  pending i v (map fst (map_to_list v)).

(** The notified sets once the loop of [handle_new_flat] has run over the
    recipients [us]. *)
Definition mark (i : pykey) (us : list pykey) (v : gmap pykey (gset pykey))
  : gmap pykey (gset pykey) :=
  map_imap (fun u vs => Some (if decide (u ∈ us) then vs ∪ {[i]} else vs)) v.

(** The state after [handle_new_flat] on a new, accepted listing. *)
Definition notified (flat : Flat) (s : Sys) : Sys :=
  let i := flat_id flat in
  let ts := recipients_of i (viewed (fst s)) in
  ({| flatlist := <[i := Live flat]> (flatlist (fst s));
      flat_details := flat_details (fst s);
      viewed := (fun vs => vs ∪ {[i]}) <$> viewed (fst s);
      scheduled_messages :=
        scheduled_messages (fst s) ++ map (fun u => address u (flat_to_message flat)) ts;
      observed_urls := observed_urls (fst s) |},
   {| log := log (snd s);
      sent := sent (snd s);
      enqueued := enqueued (snd s) ++ map (fun u => (u, i)) ts |}).

End Engine.

(** ** What a flush does

    [handed env h q]: the messages of the queue [q] that one flush hands to
    the transport when the calls [h] were made before it: the messages up to
    the first whose call fails, that one included. [flush_error] is the
    failure of that call, if there is one. *)

Fixpoint handed (env : Env) (h : list Call) (q : list Msg) : list Msg :=
  match q with
  | [] => []
  | msg :: rest =>
      msg :: match transport env h (call_of msg) with
             | None => handed env (h ++ [call_of msg]) rest
             | Some _ => []
             end
  end.

Fixpoint flush_error (env : Env) (h : list Call) (q : list Msg) : option exn :=
  match q with
  | [] => None
  | msg :: rest =>
      match transport env h (call_of msg) with
      | None => flush_error env (h ++ [call_of msg]) rest
      | Some e => Some e
      end
  end.

Definition add_log (l : list LogRecord) (w : World) : World :=
  {| log := log w ++ l; sent := sent w; enqueued := enqueued w |}.

(** Two states that differ at most in the log. *)
Definition same_but_log (s t : Sys) : Prop :=
  fst s = fst t /\ sent (snd s) = sent (snd t) /\ enqueued (snd s) = enqueued (snd t).

(** Fetching or parsing [url] raises [e]. *)
Definition fetch_fails (env : Env) (url : string) (e : exn) : Prop :=
  http_get env url = Raise e
  \/ exists res, http_get env url = Ret res /\ get_flatlist env (snd res) = Raise e.

(** A relation between the state before and the state after holds for a
    computation when it holds from every state. *)
Definition stable (R : Sys -> Sys -> Prop) {A} (m : M A) : Prop :=
  forall s, R s (fst (m s)).

(** A computation whose effect on the bot, the transport calls and the
    enqueue trace, and whose outcome, do not depend on the log. *)
Definition log_blind {A} (m : M A) : Prop :=
  forall s t, same_but_log s t ->
    same_but_log (fst (m s)) (fst (m t)) /\ snd (m s) = snd (m t).

(** How the state evolves: the listing store, the log and the transport
    calls only grow, the source URLs stay, and every pair added to the
    enqueue trace is added once and is about a listing that was not in the
    store before. *)
Definition evolves (s s' : Sys) : Prop :=
  dom (flatlist (fst s)) ⊆ dom (flatlist (fst s'))
  /\ observed_urls (fst s') = observed_urls (fst s)
  /\ (exists l, log (snd s') = log (snd s) ++ l)
  /\ (exists c, sent (snd s') = sent (snd s) ++ c)
  /\ (exists evs,
        enqueued (snd s') = enqueued (snd s) ++ evs
        /\ NoDup evs
        /\ (forall u i, (u, i) ∈ evs ->
              (i ∉ dom (flatlist (fst s))) /\ (i ∈ dom (flatlist (fst s'))))).

(** Every notified id is the id of a stored listing. *)
Definition notified_stored (s : Sys) : Prop :=
  forall u vs, viewed (fst s) !! u = Some vs -> vs ⊆ dom (flatlist (fst s)).

(** The invariant [notified_stored] as a relation between the state before
    and the state after. *)
Definition keeps_notified_stored (s s' : Sys) : Prop :=
  notified_stored s -> notified_stored s'.

(** Equality of persisted states: the objects hold the same members, the
    lists of notified ids hold the same ids, the two lists are equal. *)
Definition ser_equiv (x y : CianStateSerializable) : Prop :=
  json_object (s_flatlist x) = json_object (s_flatlist y)
  /\ json_object (s_flat_details x) = json_object (s_flat_details y)
  /\ (list_to_set <$> json_object (s_viewed x) : gmap string (gset pykey))
     = (list_to_set <$> json_object (s_viewed y))
  /\ s_scheduled_messages x = s_scheduled_messages y
  /\ s_observed_urls x = s_observed_urls y.

(** ** The claims of the specification that the code does not meet, as
    stated *)

(** A flush drains the queue and hands every message to the transport,
    whatever the outcome of the single calls. *)
Definition flush_drains (env : Env) (s : Sys) : Prop :=
  let s' := fst (send_messages env s) in
  scheduled_messages (fst s') = []
  /\ forall msg, msg ∈ scheduled_messages (fst s) -> call_of msg ∈ sent (snd s').

(** After [start], the next cycle enqueues a message about listing [i] for
    recipient [u]. *)
Definition redelivered (lower repr : string -> string) (env : Env) (u i : pykey) (s : Sys)
  : Prop :=
  let s1 := fst (start u s) in
  let s2 := fst (fetch_cian lower repr env s1) in
  exists evs, enqueued (snd s2) = enqueued (snd s1) ++ evs /\ (u, i) ∈ evs.

(** A cycle returns, also when its persistence step fails. *)
Definition survives_persistence_failure (lower repr : string -> string) (env : Env) (s : Sys)
  : Prop :=
  snd (fetch_cian lower repr env s) = Ret tt.

(** After a cycle, every listing of every source URL whose fetch and parse
    succeed is in the store. *)
Definition other_urls_processed (lower repr : string -> string) (env : Env) (s : Sys) : Prop :=
  forall url res flats f,
    url ∈ observed_urls (fst s) ->
    http_get env url = Ret res ->
    get_flatlist env (snd res) = Ret flats ->
    f ∈ flats ->
    flat_id f ∈ dom (flatlist (fst (fst (fetch_cian lower repr env s)))).

(** ** Sample data *)

(** [str.lower] on UTF-8 text in the Latin and the Russian alphabet. *)
Fixpoint lower_ru (s : string) : string :=
  match s with
  | EmptyString => EmptyString
  | String a rest =>
      let n := Ascii.nat_of_ascii a in
      if ((65 <=? n) && (n <=? 90))%nat
      then String (Ascii.ascii_of_nat (n + 32)) (lower_ru rest)
      else if (n =? 208)%nat then
        match rest with
        | String b rest' =>
            let m := Ascii.nat_of_ascii b in
            if ((144 <=? m) && (m <=? 159))%nat
            then String a (String (Ascii.ascii_of_nat (m + 32)) (lower_ru rest'))
            else if ((160 <=? m) && (m <=? 175))%nat
            then String (Ascii.ascii_of_nat 209)
                        (String (Ascii.ascii_of_nat (m - 32)) (lower_ru rest'))
            else if ((128 <=? m) && (m <=? 143))%nat
            then String (Ascii.ascii_of_nat 209)
                        (String (Ascii.ascii_of_nat (m + 16)) (lower_ru rest'))
            else String a (String b (lower_ru rest'))
        | EmptyString => String a EmptyString
        end
      else String a (lower_ru rest)
  end.

(** [repr] of a str without quotes, backslashes or control characters. *)
Definition repr_quote (s : string) : string := ("'" ++ s ++ "'")%string.

Definition flat_A : Flat :=
  {| flat_id := KInt 1; price := 3000; rooms := 1; bedrooms := 1;
     deposit := 0; fee := 0; bonus := 0;
     metros := ["Лубянка"]; photos := []; pdf_link := "https://cian.ru/1.pdf" |}.

Definition flat_B : Flat :=
  {| flat_id := KInt 2; price := 80000; rooms := 1; bedrooms := 1;
     deposit := 0; fee := 0; bonus := 0;
     metros := ["Лубянка"]; photos := ["https://cian.ru/2.jpg"];
     pdf_link := "https://cian.ru/2.pdf" |}.

(** Listing 1 as a later fetch reports it, with another price and no
    rooms: the price filter raises on it. *)
Definition flat_A_later : Flat :=
  {| flat_id := KInt 1; price := 3100; rooms := 0; bedrooms := 1;
     deposit := 0; fee := 0; bonus := 0;
     metros := ["Лубянка"]; photos := []; pdf_link := "https://cian.ru/1.pdf" |}.

(** Two recipients, 7 and 8, after their [start]; nothing else. *)
Definition bot_two : CianBot :=
  {| flatlist := ∅; flat_details := ∅;
     viewed := {[ KInt 7 := ∅; KInt 8 := ∅ ]};
     scheduled_messages := []; observed_urls := [] |}.

Definition url_a : string := "https://cian.ru/a".
Definition url_down : string := "https://cian.ru/down".

(** All collaborators work; [url_a] lists [flat_A] and [flat_B]. *)
Definition env_ok : Env :=
  {| http_get := fun url => Ret (200, url);
     get_flatlist := fun html => if String.eqb html url_a then Ret [flat_A; flat_B] else Ret [];
     transport := fun _ _ => None;
     write_state := fun _ _ => None |}.

(** [url_down] cannot be fetched. *)
Definition env_one_down : Env :=
  {| http_get := fun url =>
       if String.eqb url url_down then Raise (External "ConnectionError")
       else Ret (200, url);
     get_flatlist := get_flatlist env_ok;
     transport := fun _ _ => None;
     write_state := fun _ _ => None |}.

(** The first call of the transport fails, the later ones succeed. *)
Definition env_send_fails : Env :=
  {| http_get := http_get env_ok;
     get_flatlist := get_flatlist env_ok;
     transport := fun h _ =>
       match h with [] => Some (External "NetworkError") | _ => None end;
     write_state := fun _ _ => None |}.

(** The state cannot be written. *)
Definition env_disk_full : Env :=
  {| http_get := http_get env_ok;
     get_flatlist := get_flatlist env_ok;
     transport := fun _ _ => None;
     write_state := fun _ _ => Some (External "OSError") |}.

Definition with_urls (urls : list string) (b : CianBot) : CianBot :=
  {| flatlist := flatlist b; flat_details := flat_details b; viewed := viewed b;
     scheduled_messages := scheduled_messages b; observed_urls := urls |}.

(** The state after one cycle over [url_a] with recipients 7 and 8: both
    have been notified of listing 1 and the messages are delivered. *)
Definition sys_notified : Sys :=
  run lower_ru repr_quote [FetchCian env_ok] (with_urls [url_a] bot_two, world0).

(** Two messages wait in the queue. *)
Definition sys_two_queued : Sys :=
  run lower_ru repr_quote [HandleNewFlat flat_A] (bot_two, world0).

(** ** Observing a source

    [sorted(set(urls))]: the members of [urls], each once, in the order of
    str. Python compares strs by code points; on UTF-8 text that is the order
    of the bytes, [String.le]. Sorting a list without duplicates by a total
    order has one result, whatever the algorithm and the order in which the
    set is iterated. *)
Definition sorted_set (urls : list string) : list string :=
  merge_sort String.le (remove_dups urls).

(** The log records of [observe_url]. They are kept apart from [log], in the
    order in which [observe_url] writes them. *)
Inductive ObserveRecord : Type :=
  | ErrorInvalidArguments (args : list string)
  | InfoScheduledFetch
  | InfoObserving (url : string).

(** What [observe_url] touches outside the bot: the replies it has asked the
    chat library to send, the one-off jobs it has handed to the job queue
    (delay in seconds and the chat id given as context; each job runs
    [fetch_cian]), and its log records. *)
Record Dispatcher : Type := mkDispatcher {
  replies : list string;
  jobs : list (Z * pykey);
  observe_log : list ObserveRecord
}.

Definition dispatcher0 : Dispatcher := {| replies := []; jobs := []; observe_log := [] |}.

Definition synopsis : string := "Synopsis: /observe https://cian.ru/...".

(** [observe_url]: [u] is [update.message.chat_id], [args] is
    [context.args]. [reply] is the call [update.message.reply]: the failure,
    if any, of a reply, given the replies asked for before. *)
Definition observe_url (reply : list string -> string -> option exn)
    (u : pykey) (args : list string) (st : Sys * Dispatcher)
  : (Sys * Dispatcher) * outcome unit :=
  let s := fst st in
  let d := snd st in
  match args with
  | [url] =>
      let s1 := (with_urls (sorted_set (observed_urls (fst s) ++ [url])) (fst s), snd s) in
      let text := ("Observing " ++ url)%string in
      let d1 := {| replies := replies d ++ [text];
                   jobs := jobs d ++ [(5, u)];
                   observe_log := observe_log d ++ [InfoScheduledFetch] |} in
      match reply (replies d) text with
      | Some e => ((s1, d1), Raise e)
      | None =>
          ((s1, {| replies := replies d1;
                   jobs := jobs d1;
                   observe_log := observe_log d1 ++ [InfoObserving url] |}), Ret tt)
      end
  | _ =>
      let d1 := {| replies := replies d ++ [synopsis];
                   jobs := jobs d;
                   observe_log := observe_log d |} in
      match reply (replies d) synopsis with
      | Some e => ((s, d1), Raise e)
      | None =>
          ((s, {| replies := replies d1;
                  jobs := jobs d1;
                  observe_log := observe_log d1 ++ [ErrorInvalidArguments args] |}), Ret tt)
      end
  end.


(** ** Relations between the states of a run *)

(** What no operation undoes: a stored listing stays stored with the value
    it has, a recipient stays registered, the source URLs stay. *)
Definition persists (s s' : Sys) : Prop :=
  (forall i v, flatlist (fst s) !! i = Some v -> flatlist (fst s') !! i = Some v)
  /\ dom (viewed (fst s)) ⊆ dom (viewed (fst s'))
  /\ observed_urls (fst s') = observed_urls (fst s)
  /\ flat_details (fst s') = flat_details (fst s).

(** Every notified set has grown. *)
Definition sets_grow (s s' : Sys) : Prop :=
  forall u vs, viewed (fst s) !! u = Some vs ->
    exists vs', viewed (fst s') !! u = Some vs' /\ vs ⊆ vs'.

(** The calls made so far, followed by the calls the queued messages will
    give rise to. *)
Definition pipeline (s : Sys) : list Call :=
  sent (snd s) ++ map call_of (scheduled_messages (fst s)).

(** The pipeline has grown at its end by the messages enqueued, one for each
    pair added to the enqueue trace. *)
Definition fifo (s s' : Sys) : Prop :=
  exists msgs evs,
    pipeline s' = pipeline s ++ map call_of msgs
    /\ enqueued (snd s') = enqueued (snd s) ++ evs
    /\ map chat_id msgs = map fst evs.

Definition is_start (o : Op) : bool :=
  match o with Start _ => true | _ => false end.

(** The URLs of the records [InfoFetching] of a log, in order. *)
Definition fetched (l : list LogRecord) : list string :=
  omap (fun r => match r with InfoFetching url => Some url | _ => None end) l.

(** A step that writes no record [InfoFetching]. *)
Definition no_fetch (s s' : Sys) : Prop :=
  exists l, log (snd s') = log (snd s) ++ l /\ fetched l = [].

(** A chat library whose replies succeed, and one whose [Message] has no
    method [reply]. *)
Definition reply_ok : list string -> string -> option exn := fun _ _ => None.
Definition reply_missing : list string -> string -> option exn :=
  fun _ _ => Some AttributeError.

(** ** Notifications of a cycle, and a flush step by step *)

(** The messages and the pairs a step adds: [msgs] at the end of the
    pipeline, [evs] at the end of the enqueue trace. *)
Definition adds (s s' : Sys) (msgs : list Msg) (evs : list (pykey * pykey)) : Prop :=
  sent (snd s') ++ map call_of (scheduled_messages (fst s'))
  = (sent (snd s) ++ map call_of (scheduled_messages (fst s))) ++ map call_of msgs
  /\ enqueued (snd s') = enqueued (snd s) ++ evs.

(** What a cycle owes its recipients: stored listings stay, recipients stay
    and their sets gain only ids of listings stored meanwhile; what is stored
    meanwhile is a listing under its own id, and when it passes the filters,
    every recipient whose set lacked its id has a pair in the trace and a
    message in the pipeline. *)
Definition announces (lower repr : string -> string) (s s' : Sys) : Prop :=
  (forall i v, flatlist (fst s) !! i = Some v -> flatlist (fst s') !! i = Some v)
  /\ (forall u vs, viewed (fst s) !! u = Some vs ->
        exists vs', viewed (fst s') !! u = Some vs'
          /\ forall i, i ∈ vs' ->
               i ∈ vs \/ (flatlist (fst s) !! i = None /\ is_Some (flatlist (fst s') !! i)))
  /\ exists msgs evs,
       adds s s' msgs evs
       /\ forall i v,
            flatlist (fst s) !! i = None ->
            flatlist (fst s') !! i = Some v ->
            exists f,
              v = Live f /\ flat_id f = i
              /\ (accepts lower f = Ret true ->
                  forall u vs,
                    viewed (fst s) !! u = Some vs ->
                    i ∉ vs ->
                    (u, i) ∈ evs /\ address u (flat_to_message repr f) ∈ msgs).

(** The calls for the messages of [ms] succeed, one after the other, when
    the calls [h] were made before. *)
Definition calls_succeed (env : Env) (h : list Call) (ms : list Msg) : Prop :=
  forall k m, ms !! k = Some m ->
    transport env (h ++ map call_of (take k ms)) (call_of m) = None.

(** The state in which a flush from [s] ends after the calls for [done]. *)
Definition flushed (s : Sys) (done rest : list Msg) : Sys :=
  (set_scheduled_messages (fun _ => rest) (fst s),
   {| log := log (snd s) ++ map (fun m => DebugNotifying (chat_id m) (text m)) done;
      sent := sent (snd s) ++ map call_of done;
      enqueued := enqueued (snd s) |}).

(** ** A source whose first listing has no rooms *)

(** A listing without rooms, and a source that lists it before listing 1;
    [url_down] cannot be fetched. *)
Definition flat_studio : Flat :=
  {| flat_id := KInt 3; price := 30000; rooms := 0; bedrooms := 0;
     deposit := 0; fee := 0; bonus := 0;
     metros := ["Лубянка"]; photos := []; pdf_link := "https://cian.ru/3.pdf" |}.

Definition url_b : string := "https://cian.ru/b".

Definition env_studio : Env :=
  {| http_get := http_get env_one_down;
     get_flatlist := fun html =>
       if String.eqb html url_b then Ret [flat_studio; flat_A] else Ret [];
     transport := fun _ _ => None;
     write_state := fun _ _ => None |}.

(** * Properties *)

(** *** The price test

    For a positive number of rooms below [2^38] and a price that no double
    overflows on, the test on the double is the test on the exact
    quotient. *)

Lemma ppp_le_35000_exact p r :
  0 < r < 2 ^ 38 -> Z.abs p < 2 ^ 1000 ->
  ppp_le_35000 p r = Ret (bool_decide (p <= 35000 * r)).
Proof.
  intros Hr Hp. unfold ppp_le_35000, DBL_OVERFLOW.
  change (2 ^ 38) with 274877906944 in *.
  assert (H1000 : 2 ^ 1000 < 2 ^ 1024 - 2 ^ 970) by (vm_compute; reflexivity).
  destruct (decide (r = 0)) as [->|_]; [lia|].
  destruct (decide ((2 ^ 1024 - 2 ^ 970) * Z.abs r <= Z.abs p)) as [Ho|_].
  { exfalso. assert (1 <= Z.abs r) by lia.
    assert ((2 ^ 1024 - 2 ^ 970) * 1 <= (2 ^ 1024 - 2 ^ 970) * Z.abs r).
    { apply Z.mul_le_mono_nonneg_l; [|done]. vm_compute. discriminate. }
    rewrite Z.mul_1_r in *. 
    eapply Z.lt_irrefl. eapply Z.lt_le_trans; [exact Hp|].
    eapply Z.le_trans; [|exact Ho]. eapply Z.le_trans; [|eassumption]. by apply Z.lt_le_incl. }
  destruct (decide (0 < r)); [|lia]. f_equal.
  apply bool_decide_ext. lia.
Qed.

(** *** Persistence *)

Lemma json_object_perm {V} (l1 l2 : list (string * V)) :
  NoDup (l1.*1) -> l1 ≡ₚ l2 -> json_object l1 = json_object l2.
Proof.
  intros Hnd Hp. unfold json_object. apply list_to_map_proper.
  - by rewrite fmap_reverse, reverse_Permutation.
  - by rewrite !reverse_Permutation.
Qed.

Lemma json_object_map_to_list {V} (m : gmap string V) : json_object (map_to_list m) = m.
Proof.
  unfold json_object. rewrite <- (list_to_map_to_list m) at 2.
  apply list_to_map_proper.
  - rewrite fmap_reverse, reverse_Permutation. apply NoDup_fst_map_to_list.
  - apply reverse_Permutation.
Qed.

(** Writing a dict whose keys are strings and reading it back. *)
Lemma json_object_dump {V W} (f : V -> W) (m : gmap string V) :
  json_object (map (fun kv => (key_str (fst kv), f (snd kv))) (map_to_list (kmap KStr m)))
  = f <$> m.
Proof.
  rewrite <- (json_object_map_to_list (f <$> m)), map_to_list_fmap.
  symmetry. apply json_object_perm.
  - rewrite <- list_fmap_compose.
    rewrite (list_fmap_ext _ fst (map_to_list m)) by (by intros ? [? ?]).
    apply NoDup_fst_map_to_list.
  - change (map ?g ?l) with (g <$> l).
    rewrite (map_to_list_kmap KStr m), <- list_fmap_compose.
    apply reflexive_eq, list_fmap_ext. by intros ? [? ?].
Qed.

Lemma json_object_dump_id {V} (m : gmap string V) :
  json_object (map (fun kv => (key_str (fst kv), snd kv)) (map_to_list (kmap KStr m))) = m.
Proof. rewrite <- (map_fmap_id m) at 2. exact (json_object_dump id m). Qed.

(** C2. Persistence round trip. Loading a persisted state and saving it at
    once gives an equal persisted state: the listings, the details and the
    notified sets hold the same members, the pending messages and the source
    URLs are the same lists, in the same order. This holds for every
    persisted state, among them all that [save] writes. Loading the second
    state gives the bot that loading the first gave. *)
Theorem save_load_round_trip (x : CianStateSerializable) :
  ser_equiv (asdict_state (from_directory x)) x
  /\ s_scheduled_messages (asdict_state (from_directory x)) = s_scheduled_messages x
  /\ s_observed_urls (asdict_state (from_directory x)) = s_observed_urls x
  /\ from_directory (asdict_state (from_directory x)) = from_directory x.
Proof.
  assert (He : ser_equiv (asdict_state (from_directory x)) x).
  { unfold ser_equiv, asdict_state, from_directory; simpl.
    rewrite !json_object_dump, json_object_dump_id.
    split; [|split; [|split; [|done]]].
    - rewrite <- map_fmap_compose. apply map_fmap_id.
    - done.
    - rewrite <- !map_fmap_compose. apply map_fmap_ext. intros k l _. simpl.
      apply list_to_set_elements_L. }
  split; [exact He|]. split; [done|]. split; [done|].
  destruct He as (H1 & H2 & H3 & H4 & H5).
  unfold from_directory at 1 3. by rewrite H1, H2, H3, H4, H5.
Qed.


Section Properties.

Variable lower : string -> string.
Variable repr : string -> string.

Lemma add_log_nil w : add_log [] w = w.
Proof. destruct w; unfold add_log; simpl. by rewrite app_nil_r. Qed.

Lemma add_log_app l1 l2 w : add_log l2 (add_log l1 w) = add_log (l1 ++ l2) w.
Proof. unfold add_log; simpl. by rewrite app_assoc. Qed.

Lemma logger_eq r s : logger r s = ((fst s, add_log [r] (snd s)), Ret tt).
Proof. reflexivity. Qed.

Lemma flat_ok_eq flat s :
  flat_ok lower flat s = ((fst s, add_log (filters_log lower flat) (snd s)), accepts lower flat).
Proof.
  destruct s as [b w].
  unfold flat_ok, filters, run_filters, accepts, filters_log, filter_price_per_person,
    filter_metro, bind, lift, ret, logger, price_test; simpl.
  destruct (ppp_le_35000 (price flat) (rooms flat)) as [[|]|e]; simpl.
  - destruct (metro_test lower flat); simpl.
    + by rewrite add_log_nil.
    + unfold add_log; simpl. by rewrite <- app_assoc.
  - unfold add_log; simpl. by rewrite <- app_assoc.
  - by rewrite add_log_nil.
Qed.

Lemma lookup_mark i us v u :
  mark i us v !! u = (fun vs => if decide (u ∈ us) then vs ∪ {[i]} else vs) <$> v !! u.
Proof.
  unfold mark. rewrite map_lookup_imap. by destruct (v !! u).
Qed.

Lemma mark_nil i v : mark i [] v = v.
Proof.
  apply map_eq; intros u. rewrite lookup_mark.
  destruct (v !! u); simpl; [|done].
  first [done | by rewrite decide_False by apply not_elem_of_nil].
Qed.

Lemma mark_all i v : mark i (map fst (map_to_list v)) v = (fun vs => vs ∪ {[i]}) <$> v.
Proof.
  apply map_eq; intros u. rewrite lookup_mark, lookup_fmap.
  destruct (v !! u) as [vs|] eqn:E; simpl; [|done].
  rewrite decide_True; [done|].
  apply list_elem_of_fmap. exists (u, vs). split; [done|].
  by apply elem_of_map_to_list.
Qed.

Lemma pending_ext i v v' us :
  (forall u, u ∈ us -> v' !! u = v !! u) -> pending i v' us = pending i v us.
Proof.
  induction us as [|u us IH]; intros H; [done|].
  unfold pending in *. rewrite !filter_cons.
  rewrite (H u) by left. rewrite IH by (intros; apply H; by right).
  by destruct (decide _).
Qed.

Lemma pending_cons_seen i v u us vs :
  v !! u = Some vs -> i ∈ vs -> pending i v (u :: us) = pending i v us.
Proof.
  intros Hvs Hin. unfold pending. apply filter_cons_False. rewrite Hvs. simpl. tauto.
Qed.

Lemma pending_cons_new i v u us vs :
  v !! u = Some vs -> i ∉ vs -> pending i v (u :: us) = u :: pending i v us.
Proof.
  intros Hvs Hin. unfold pending. apply filter_cons_True. by rewrite Hvs.
Qed.

Lemma mark_cons_seen i v u us vs :
  v !! u = Some vs -> i ∈ vs -> mark i (u :: us) v = mark i us v.
Proof.
  intros Hvs Hin. apply map_eq; intros u'. rewrite !lookup_mark.
  destruct (v !! u') as [vs'|] eqn:E; simpl; [|done]. f_equal.
  destruct (decide (u' = u)) as [->|Hne].
  - rewrite decide_True by left. assert (vs' = vs) as -> by congruence.
    destruct (decide (u ∈ us)); [done|].
    rewrite (union_comm_L vs). apply subseteq_union_1_L. by apply singleton_subseteq_l.
  - destruct (decide (u' ∈ us)).
    + by rewrite decide_True by (by right).
    + rewrite decide_False; [done|]. intros [?|?]%elem_of_cons; done.
Qed.

Lemma mark_cons_new i v u us vs :
  v !! u = Some vs -> u ∉ us ->
  mark i (u :: us) v = mark i us (<[u := vs ∪ {[i]}]> v).
Proof.
  intros Hvs Hu. apply map_eq; intros u'. rewrite !lookup_mark.
  destruct (decide (u' = u)) as [->|Hne].
  - rewrite lookup_insert_eq, Hvs. simpl.
    rewrite decide_True by left. by rewrite decide_False by done.
  - rewrite lookup_insert_ne by done.
    destruct (v !! u') as [vs'|] eqn:E; simpl; [|done]. f_equal.
    destruct (decide (u' ∈ us)).
    + by rewrite decide_True by (by right).
    + rewrite decide_False; [done|]. intros [?|?]%elem_of_cons; done.
Qed.

Lemma notify_loop i msg us :
  NoDup us ->
  forall s,
    (forall u, u ∈ us -> is_Some (viewed (fst s) !! u)) ->
    for_ us (notify i msg) s
    = (({| flatlist := flatlist (fst s);
           flat_details := flat_details (fst s);
           viewed := mark i us (viewed (fst s));
           scheduled_messages :=
             scheduled_messages (fst s)
             ++ map (fun u => address u msg) (pending i (viewed (fst s)) us);
           observed_urls := observed_urls (fst s) |},
        {| log := log (snd s);
           sent := sent (snd s);
           enqueued :=
             enqueued (snd s) ++ map (fun u => (u, i)) (pending i (viewed (fst s)) us) |}),
       Ret tt).
Proof.
  induction 1 as [|u us Hu Hnd IH]; intros [b w] Hkeys; simpl in *.
  - rewrite mark_nil, !app_nil_r. by destruct b, w.
  - destruct (Hkeys u) as [vs Hvs]; [by left|].
    unfold bind at 1. unfold notify at 1. unfold bind at 1, gets at 1. simpl.
    rewrite Hvs. simpl.
    destruct (bool_decide (i ∈ vs)) eqn:Hin.
    + apply bool_decide_eq_true in Hin.
      unfold ret at 1. rewrite IH by (intros; apply Hkeys; by right). simpl.
      by rewrite (pending_cons_seen _ _ _ _ _ Hvs Hin), (mark_cons_seen _ _ _ _ _ Hvs Hin).
    + apply bool_decide_eq_false in Hin.
      unfold append_message, modify, bind, ret; simpl.
      rewrite IH; simpl.
      2:{ intros u' Hu'. destruct (decide (u' = u)) as [->|Hne]; [by rewrite lookup_insert_eq|].
          rewrite lookup_insert_ne by done. apply Hkeys. by right. }
      rewrite (pending_ext i (viewed b)).
      2:{ intros u' Hu'. apply lookup_insert_ne. intros ->. done. }
      rewrite (pending_cons_new _ _ _ _ _ Hvs Hin), (mark_cons_new _ _ _ _ _ Hvs Hu).
      simpl. by rewrite <- !app_assoc.
Qed.

Lemma accepts_true_log flat : accepts lower flat = Ret true -> filters_log lower flat = [].
Proof.
  unfold accepts, filters_log.
  destruct (price_test flat) as [[|]|e]; try discriminate.
  intros [= ->]. done.
Qed.

Lemma handle_new_flat_eq flat s :
  handle_new_flat lower repr flat s =
    match flatlist (fst s) !! flat_id flat with
    | Some _ => (s, Ret tt)
    | None =>
        let s1 := (set_flatlist (fun m => <[flat_id flat := Live flat]> m) (fst s),
                   add_log (filters_log lower flat) (snd s)) in
        match accepts lower flat with
        | Ret true => (notified repr flat s, Ret tt)
        | Ret false => (s1, Ret tt)
        | Raise e => (s1, Raise e)
        end
    end.
Proof.
  destruct s as [b w]. unfold handle_new_flat.
  unfold bind at 1. unfold gets at 1. simpl.
  destruct (flatlist b !! flat_id flat) as [v|] eqn:E.
  - rewrite bool_decide_eq_true_2 by (by eexists). done.
  - rewrite bool_decide_eq_false_2 by (intros [? ?]; congruence).
    unfold bind at 1. unfold modify at 1. simpl.
    unfold bind at 1. rewrite flat_ok_eq. simpl.
    destruct (accepts lower flat) as [[|]|e] eqn:Hacc; simpl; try done.
    rewrite (accepts_true_log _ Hacc), add_log_nil.
    unfold bind at 1, gets at 1. simpl.
    rewrite notify_loop; simpl.
    + unfold notified, recipients_of; simpl.
      by rewrite mark_all.
    + apply NoDup_fst_map_to_list.
    + intros u [[u' vs] [-> Hin]]%list_elem_of_fmap. simpl.
      apply elem_of_map_to_list in Hin. by eexists.
Qed.

(** *** Flushing the queue *)

Lemma send_loop_eq env q :
  forall s,
    send_loop env q s
    = ((set_scheduled_messages
          (fun q0 => match q with
                     | [] => q0
                     | _ => drop (length (handed env (sent (snd s)) q)) q
                     end) (fst s),
        {| log := log (snd s)
                  ++ map (fun m => DebugNotifying (chat_id m) (text m))
                         (handed env (sent (snd s)) q);
           sent := sent (snd s) ++ map call_of (handed env (sent (snd s)) q);
           enqueued := enqueued (snd s) |}),
       match flush_error env (sent (snd s)) q with
       | None => Ret tt
       | Some e => Raise e
       end).
Proof.
  induction q as [|m rest IH]; intros [b w]; simpl.
  - unfold ret. rewrite !app_nil_r. by destruct b, w.
  - unfold bind, modify, logger, transport_call; simpl.
    destruct (transport env (sent w) (call_of m)) as [e|] eqn:Ht; simpl.
    + by destruct rest.
    + rewrite IH. simpl. rewrite <- !app_assoc. simpl.
      unfold set_scheduled_messages; simpl.
      destruct rest as [|m' rest']; simpl; [|done].
      done.
Qed.

Lemma send_messages_eq env s :
  send_messages env s
  = ((set_scheduled_messages
        (fun q => drop (length (handed env (sent (snd s)) q)) q) (fst s),
      {| log := log (snd s)
                ++ map (fun m => DebugNotifying (chat_id m) (text m))
                       (handed env (sent (snd s)) (scheduled_messages (fst s)));
         sent := sent (snd s)
                 ++ map call_of (handed env (sent (snd s)) (scheduled_messages (fst s)));
         enqueued := enqueued (snd s) |}),
     match flush_error env (sent (snd s)) (scheduled_messages (fst s)) with
     | None => Ret tt
     | Some e => Raise e
     end).
Proof.
  unfold send_messages, bind, gets. rewrite send_loop_eq. simpl.
  destruct s as [b w]; simpl. unfold set_scheduled_messages; simpl.
  by destruct (scheduled_messages b).
Qed.

(** The queue splits into the messages handed over and the ones left. *)
Lemma handed_prefix env q : forall h, q = handed env h q ++ drop (length (handed env h q)) q.
Proof.
  induction q as [|m rest IH]; intros h; simpl; [done|].
  destruct (transport env h (call_of m)); simpl.
  - by rewrite drop_0.
  - f_equal. apply IH.
Qed.

Lemma handed_all env q : forall h, flush_error env h q = None -> handed env h q = q.
Proof.
  induction q as [|m rest IH]; intros h; simpl; [done|].
  destruct (transport env h (call_of m)); [done|]. intros H. f_equal. by apply IH.
Qed.

Lemma handed_failure env q :
  forall h e, flush_error env h q = Some e ->
    exists done' m,
      handed env h q = done' ++ [m]
      /\ transport env (h ++ map call_of done') (call_of m) = Some e
      /\ forall k m', done' !! k = Some m' ->
           transport env (h ++ map call_of (take k done')) (call_of m') = None.
Proof.
  induction q as [|m rest IH]; intros h e; simpl; [done|].
  destruct (transport env h (call_of m)) as [e'|] eqn:Ht.
  - intros [= ->]. exists [], m. simpl. rewrite app_nil_r. split; [done|]. split; [done|].
    intros k m' Hk. done.
  - intros H. destruct (IH _ _ H) as (d & m0 & Hd & Hf & Hok).
    exists (m :: d), m0. rewrite Hd. split; [done|]. simpl.
    rewrite <- app_assoc in Hf. split; [done|].
    intros [|k] m' Hk; simpl in *.
    + injection Hk as <-. by rewrite app_nil_r.
    + specialize (Hok _ _ Hk). by rewrite <- app_assoc in Hok.
Qed.

Lemma flush_error_reliable env q :
  (forall h c, transport env h c = None) -> forall h, flush_error env h q = None.
Proof.
  intros Hok. induction q as [|m rest IH]; intros h; simpl; [done|].
  by rewrite Hok.
Qed.

(** *** Relations kept by every step *)

Section Stable.

Variable R : Sys -> Sys -> Prop.
Context `{!PreOrder R}.

Lemma stable_skip {A} (m : M A) : (forall s, fst (m s) = s) -> stable R m.
Proof. intros H s. rewrite H. reflexivity. Qed.

Lemma stable_bind {A B} (m : M A) (k : A -> M B) :
  stable R m -> (forall a, stable R (k a)) -> stable R (bind m k).
Proof.
  intros Hm Hk s. unfold bind. specialize (Hm s).
  destruct (m s) as [s' [a|e]]; simpl in *; [|done].
  etrans; [exact Hm|apply Hk].
Qed.

Lemma stable_for {A} (xs : list A) (body : A -> M unit) :
  (forall x, stable R (body x)) -> stable R (for_ xs body).
Proof.
  intros Hb. induction xs as [|x xs IH]; simpl.
  - by apply stable_skip.
  - apply stable_bind; [apply Hb|done].
Qed.

Lemma stable_try (m : M unit) (h : exn -> M unit) :
  stable R m -> (forall e, stable R (h e)) -> stable R (try_except m h).
Proof.
  intros Hm Hh s. unfold try_except. specialize (Hm s).
  destruct (m s) as [s' [a|e]]; simpl in *; [done|].
  etrans; [exact Hm|apply Hh].
Qed.

Lemma bind_after {A B} (m : M A) (k : A -> M B) s :
  (forall a, stable R (k a)) -> R (fst (m s)) (fst (bind m k s)).
Proof.
  intros Hk. unfold bind. destruct (m s) as [s' [a|e]]; simpl; [apply Hk|reflexivity].
Qed.

Lemma try_after (m : M unit) (h : exn -> M unit) s :
  (forall e, stable R (h e)) -> R (fst (m s)) (fst (try_except m h s)).
Proof.
  intros Hh. unfold try_except. destruct (m s) as [s' [a|e]]; simpl; [reflexivity|apply Hh].
Qed.

Hypothesis R_logger : forall r, stable R (logger r).
Hypothesis R_handle : forall flat, stable R (handle_new_flat lower repr flat).
Hypothesis R_send : forall env, stable R (send_messages env).

Lemma stable_fetch_url env url : stable R (fetch_url lower repr env url).
Proof.
  apply stable_try; [|intros e; apply R_logger].
  unfold fetch_url_try.
  apply stable_bind; [apply R_logger|intros _].
  apply stable_bind; [by apply stable_skip|intros res].
  apply stable_bind; [apply R_logger|intros _].
  apply stable_bind; [by apply stable_skip|intros flats].
  apply stable_bind; [apply stable_for, R_handle|intros _].
  apply stable_bind; [apply R_send|intros _].
  apply R_logger.
Qed.

Lemma save_state_eq env path s :
  save env path s
  = (s, match write_state env path (asdict_state (fst s)) with
        | None => Ret tt
        | Some e => Raise e
        end).
Proof.
  unfold save, bind, gets; simpl. by destruct (write_state _ _ _).
Qed.

Lemma stable_fetch_cian env : stable R (fetch_cian lower repr env).
Proof.
  unfold fetch_cian.
  apply stable_bind; [by apply stable_skip|intros urls].
  destruct (bool_decide _); [apply R_logger|].
  apply stable_bind; [apply stable_for; intros url; apply stable_fetch_url|intros _].
  apply stable_bind; [apply R_logger|intros _].
  apply stable_bind; [|intros _; apply R_logger].
  apply stable_skip. intros s. by rewrite save_state_eq.
Qed.

Hypothesis R_start : forall u, stable R (start u).
Hypothesis R_fetch_messages : forall u, stable R (fetch_messages lower u).

Lemma stable_step o : stable R (step lower repr o).
Proof.
  destruct o; simpl; auto using stable_fetch_cian.
Qed.

Lemma stable_run ops : forall s, R s (run lower repr ops s).
Proof.
  induction ops as [|o ops IH]; intros s; simpl; [reflexivity|].
  etrans; [apply stable_step|apply IH].
Qed.

End Stable.

(** *** The state evolves *)

(** A step that may add listings to the store, appends to the log and to
    the transport calls, and enqueues nothing. *)
Lemma evolves_quiet s s' l c :
  dom (flatlist (fst s)) ⊆ dom (flatlist (fst s')) ->
  observed_urls (fst s') = observed_urls (fst s) ->
  log (snd s') = log (snd s) ++ l ->
  sent (snd s') = sent (snd s) ++ c ->
  enqueued (snd s') = enqueued (snd s) ->
  evolves s s'.
Proof.
  intros Hf Hu Hl Hc He. split; [done|]. split; [done|].
  split; [by exists l|]. split; [by exists c|].
  exists []. rewrite app_nil_r. split; [done|]. split; [apply NoDup_nil_2|].
  intros u i Hin. by apply elem_of_nil in Hin.
Qed.

#[local] Instance evolves_preorder : PreOrder evolves.
Proof.
  split.
  - intros s. apply (evolves_quiet s s [] []); by rewrite ?app_nil_r.
  - intros s s1 s2 (Hd1 & Hu1 & [l1 Hl1] & [c1 Hc1] & (evs1 & He1 & Hn1 & Hf1))
                   (Hd2 & Hu2 & [l2 Hl2] & [c2 Hc2] & (evs2 & He2 & Hn2 & Hf2)).
    split; [by etrans|]. split; [congruence|].
    split; [exists (l1 ++ l2); by rewrite Hl2, Hl1, app_assoc|].
    split; [exists (c1 ++ c2); by rewrite Hc2, Hc1, app_assoc|].
    exists (evs1 ++ evs2). split; [by rewrite He2, He1, app_assoc|]. split.
    + apply NoDup_app. split; [done|]. split; [|done].
      intros [u i] H1 H2. apply Hf1 in H1. apply Hf2 in H2. tauto.
    + intros u i [H|H]%elem_of_app.
      * apply Hf1 in H as [Ha Hb]. split; [done|by apply Hd2].
      * apply Hf2 in H as [Ha Hb]. split; [|done]. intros Hi. by apply Ha, Hd1.
Qed.

Lemma evolves_logger r : stable evolves (logger r).
Proof.
  intros s. apply (evolves_quiet _ _ [r] []); simpl; try done. by rewrite app_nil_r.
Qed.

Lemma NoDup_recipients_of i v : NoDup (recipients_of i v).
Proof. apply NoDup_filter, NoDup_fst_map_to_list. Qed.

Lemma evolves_handle_new_flat flat : stable evolves (handle_new_flat lower repr flat).
Proof.
  intros s. rewrite handle_new_flat_eq.
  destruct (flatlist (fst s) !! flat_id flat) eqn:E; simpl; [reflexivity|].
  assert (Hdom : dom (flatlist (fst s)) ⊆ dom (<[flat_id flat := Live flat]> (flatlist (fst s))))
    by (rewrite dom_insert_L; apply union_subseteq_r).
  assert (Hq : evolves s (set_flatlist (fun m => <[flat_id flat := Live flat]> m) (fst s),
                          add_log (filters_log lower flat) (snd s)))
    by (apply (evolves_quiet _ _ (filters_log lower flat) []); simpl;
        by rewrite ?app_nil_r).
  destruct (accepts lower flat) as [[|]|e]; simpl; try done.
  split; [done|]. split; [done|].
  split; [exists []; simpl; by rewrite app_nil_r|].
  split; [exists []; simpl; by rewrite app_nil_r|].
  eexists. split; [done|]. split.
  - apply NoDup_fmap_2; [|apply NoDup_recipients_of]. intros u1 u2 [=]. done.
  - intros u i [u' [[= -> ->] _]]%list_elem_of_fmap. simpl. split.
    + by apply not_elem_of_dom.
    + rewrite dom_insert_L. set_solver.
Qed.

Lemma evolves_send_messages env : stable evolves (send_messages env).
Proof.
  intros s. rewrite send_messages_eq.
  by eapply evolves_quiet; simpl.
Qed.

Lemma evolves_start u : stable evolves (start u).
Proof.
  intros s. apply (evolves_quiet _ _ [InfoConnected u] []); simpl; try done.
  by rewrite app_nil_r.
Qed.

Lemma fetch_messages_eq u s :
  fetch_messages lower u s
  = ((fst s,
      add_log (InfoAsksForMessages u
               :: if decide (flatlist (fst s) = ∅) then [InfoSendingAsRequested] else [])
              (snd s)),
     Raise (if decide (flatlist (fst s) = ∅) then TypeError else AttributeError)).
Proof.
  destruct s as [b w]. unfold fetch_messages.
  unfold bind at 1. unfold logger at 1. simpl.
  unfold bind at 1. unfold gets at 1. simpl.
  destruct (decide (flatlist b = ∅)) as [He|He].
  - rewrite He, map_to_list_empty. simpl.
    unfold bind, ret, logger, send_messages_without_context, raise, add_log; simpl.
    by rewrite <- app_assoc.
  - destruct (map_to_list (flatlist b)) as [|[k v] l] eqn:El.
    { by apply map_to_list_empty_iff in El. }
    simpl. unfold bind, key_attr, raise. simpl. done.
Qed.

Lemma evolves_fetch_messages u : stable evolves (fetch_messages lower u).
Proof.
  intros s. rewrite fetch_messages_eq.
  eapply evolves_quiet; simpl; try done. by rewrite app_nil_r.
Qed.

Create HintDb cian.

#[local] Hint Resolve evolves_logger evolves_handle_new_flat evolves_send_messages
  evolves_start evolves_fetch_messages : cian.

Lemma evolves_fetch_url env url : stable evolves (fetch_url lower repr env url).
Proof. apply stable_fetch_url; auto with cian. apply _. Qed.

Lemma evolves_fetch_urls env urls : stable evolves (fetch_urls lower repr env urls).
Proof. apply stable_for; [apply _|]. intros url. apply evolves_fetch_url. Qed.

Lemma evolves_fetch_cian env : stable evolves (fetch_cian lower repr env).
Proof.
  apply stable_fetch_cian; auto with cian. apply _.
Qed.

Lemma evolves_log s s' r : evolves s s' -> r ∈ log (snd s) -> r ∈ log (snd s').
Proof.
  intros (_ & _ & [l Hl] & _) Hr. rewrite Hl. apply elem_of_app. by left.
Qed.

Lemma evolves_dom s s' i :
  evolves s s' -> i ∈ dom (flatlist (fst s)) -> i ∈ dom (flatlist (fst s')).
Proof. intros (Hd & _) Hi. by apply Hd. Qed.

Lemma evolves_run ops s : evolves s (run lower repr ops s).
Proof.
  apply stable_run; auto with cian. apply _.
Qed.

(** *** The cycle *)

Lemma for_app {A} (xs ys : list A) (body : A -> M unit) s :
  for_ (xs ++ ys) body s = bind (for_ xs body) (fun _ => for_ ys body) s.
Proof.
  revert s. induction xs as [|x xs IH]; intros s; simpl; [done|].
  unfold bind in *. destruct (body x s) as [s' [[]|e]]; [|done].
  apply IH.
Qed.

Lemma fetch_url_returns env url s : snd (fetch_url lower repr env url s) = Ret tt.
Proof.
  unfold fetch_url, try_except.
  by destruct (fetch_url_try lower repr env url s) as [s' [[]|e]].
Qed.

Lemma fetch_urls_returns env urls : forall s, snd (fetch_urls lower repr env urls s) = Ret tt.
Proof.
  unfold fetch_urls. induction urls as [|url urls IH]; intros s; simpl; [done|].
  unfold bind. pose proof (fetch_url_returns env url s) as H.
  destruct (fetch_url lower repr env url s) as [s' o]; simpl in *; subst o. apply IH.
Qed.

Lemma fetch_cian_eq env s :
  observed_urls (fst s) <> [] ->
  fetch_cian lower repr env s
  = let sl := fst (fetch_urls lower repr env (observed_urls (fst s)) s) in
    match write_state env ".cian-backup" (asdict_state (fst sl)) with
    | None => ((fst sl, add_log [InfoSavingBackup; InfoSavedBackup] (snd sl)), Ret tt)
    | Some e => ((fst sl, add_log [InfoSavingBackup] (snd sl)), Raise e)
    end.
Proof.
  intros Hne. unfold fetch_cian. unfold bind at 1. unfold gets at 1. simpl.
  rewrite bool_decide_eq_false_2 by (by destruct (observed_urls (fst s))).
  unfold bind at 1.
  pose proof (fetch_urls_returns env (observed_urls (fst s)) s) as H.
  destruct (fetch_urls lower repr env (observed_urls (fst s)) s) as [sl o]; simpl in *; subst o.
  unfold bind at 1. unfold logger at 1. simpl.
  unfold bind at 1. rewrite save_state_eq. simpl.
  destruct (write_state env ".cian-backup" (asdict_state (fst sl))); simpl; [done|].
  unfold logger, add_log; simpl. by rewrite <- app_assoc.
Qed.

Lemma fetch_url_failed env url e s :
  fetch_fails env url e ->
  exists l,
    fetch_url lower repr env url s
    = ((fst s, add_log (l ++ [FatalFailedFetching url e]) (snd s)), Ret tt).
Proof.
  intros [H|(res & H1 & H2)]; unfold fetch_url, try_except, fetch_url_try, bind, lift, logger;
    simpl.
  - rewrite H. simpl. exists [InfoFetching url]. unfold add_log; simpl.
    by rewrite <- app_assoc.
  - rewrite H1. simpl. rewrite H2. simpl.
    exists [InfoFetching url; InfoStatus url (fst res)]. unfold add_log; simpl.
    by rewrite <- !app_assoc.
Qed.

(** *** Blindness to the log *)

Lemma same_but_log_refl s : same_but_log s s.
Proof. by repeat split. Qed.

Lemma same_but_log_sym s t : same_but_log s t -> same_but_log t s.
Proof. intros (?&?&?). by repeat split. Qed.

Lemma same_but_log_trans s t r : same_but_log s t -> same_but_log t r -> same_but_log s r.
Proof. intros (?&?&?) (?&?&?). repeat split; congruence. Qed.

Lemma same_but_log_add_log b w l : same_but_log (b, add_log l w) (b, w).
Proof. by repeat split. Qed.

Lemma log_blind_bind {A B} (m : M A) (k : A -> M B) :
  log_blind m -> (forall a, log_blind (k a)) -> log_blind (bind m k).
Proof.
  intros Hm Hk s t Hst. destruct (Hm s t Hst) as [H1 H2]. unfold bind.
  destruct (m s) as [s' o], (m t) as [t' o']; simpl in *; subst o'.
  destruct o; [by apply Hk|done].
Qed.

Lemma log_blind_for {A} (xs : list A) (body : A -> M unit) :
  (forall x, log_blind (body x)) -> log_blind (for_ xs body).
Proof.
  intros Hb. induction xs as [|x xs IH]; simpl; [by intros s t H|].
  apply log_blind_bind; [apply Hb|done].
Qed.

Lemma log_blind_try (m : M unit) (h : exn -> M unit) :
  log_blind m -> (forall e, log_blind (h e)) -> log_blind (try_except m h).
Proof.
  intros Hm Hh s t Hst. destruct (Hm s t Hst) as [H1 H2]. unfold try_except.
  destruct (m s) as [s' o], (m t) as [t' o']; simpl in *; subst o'.
  destruct o; [done|by apply Hh].
Qed.

Lemma log_blind_logger r : log_blind (logger r).
Proof. intros [b w] [b' w'] (?&?&?); simpl in *. by repeat split. Qed.

Lemma log_blind_lift {A} (o : outcome A) : log_blind (lift o).
Proof. by intros s t H. Qed.

Lemma log_blind_handle_new_flat flat : log_blind (handle_new_flat lower repr flat).
Proof.
  intros [b w] [b' w'] (Hb&Hs&He); simpl in *; subst b'.
  rewrite !handle_new_flat_eq; simpl.
  destruct (flatlist b !! flat_id flat); [by repeat split|].
  destruct (accepts lower flat) as [[|]|e]; simpl; (split; [|done]).
  - unfold notified; repeat split; simpl; congruence.
  - by repeat split.
  - by repeat split.
Qed.

Lemma log_blind_send_messages env : log_blind (send_messages env).
Proof.
  intros [b w] [b' w'] (Hb&Hs&He); simpl in *; subst b'.
  rewrite !send_messages_eq; simpl. rewrite Hs. by repeat split.
Qed.

Lemma log_blind_fetch_url env url : log_blind (fetch_url lower repr env url).
Proof.
  apply log_blind_try; [|intros e; apply log_blind_logger].
  unfold fetch_url_try.
  apply log_blind_bind; [apply log_blind_logger|intros _].
  apply log_blind_bind; [apply log_blind_lift|intros res].
  apply log_blind_bind; [apply log_blind_logger|intros _].
  apply log_blind_bind; [apply log_blind_lift|intros flats].
  apply log_blind_bind; [apply log_blind_for, log_blind_handle_new_flat|intros _].
  apply log_blind_bind; [apply log_blind_send_messages|intros _].
  apply log_blind_logger.
Qed.

Lemma log_blind_fetch_urls env urls : log_blind (fetch_urls lower repr env urls).
Proof. apply log_blind_for, log_blind_fetch_url. Qed.

(** Skipping a URL whose fetch fails. *)
Lemma fetch_urls_skip env urls1 bad urls2 e s :
  fetch_fails env bad e ->
  same_but_log (fst (fetch_urls lower repr env (urls1 ++ bad :: urls2) s))
               (fst (fetch_urls lower repr env (urls1 ++ urls2) s))
  /\ FatalFailedFetching bad e ∈ log (snd (fst (fetch_urls lower repr env (urls1 ++ bad :: urls2) s))).
Proof.
  intros Hbad. unfold fetch_urls. rewrite !for_app. unfold bind at 1 2 3.
  pose proof (fetch_urls_returns env urls1 s) as Hr. unfold fetch_urls in Hr.
  destruct (for_ urls1 (fetch_url lower repr env) s) as [sa o]; simpl in Hr; subst o.
  simpl. unfold bind at 1 2.
  destruct (fetch_url_failed env bad e sa Hbad) as [l Hl]. rewrite Hl.
  split.
  - apply log_blind_fetch_urls. destruct sa. apply same_but_log_add_log.
  - eapply evolves_log; [apply evolves_fetch_urls|]. simpl.
    rewrite app_assoc. apply elem_of_app. right. by left.
Qed.

(** *** Listings reach the store *)

Lemma bind_logger {B} r (k : unit -> M B) s :
  bind (logger r) k s = k tt (fst s, add_log [r] (snd s)).
Proof. reflexivity. Qed.

Lemma bind_lift_ret {A B} (a : A) (k : A -> M B) s : bind (lift (Ret a)) k s = k a s.
Proof. reflexivity. Qed.

Lemma handle_new_flat_inserts flat s :
  flat_id flat ∈ dom (flatlist (fst (fst (handle_new_flat lower repr flat s)))).
Proof.
  rewrite handle_new_flat_eq.
  destruct (flatlist (fst s) !! flat_id flat) eqn:E; simpl.
  - apply elem_of_dom. by eexists.
  - destruct (accepts lower flat) as [[|]|e]; simpl; rewrite dom_insert_L; set_solver.
Qed.

Lemma handle_new_flat_returns flat s b :
  price_test flat = Ret b -> snd (handle_new_flat lower repr flat s) = Ret tt.
Proof.
  intros Hp. rewrite handle_new_flat_eq.
  destruct (flatlist (fst s) !! flat_id flat); [done|]. simpl.
  unfold accepts. rewrite Hp. destruct b; simpl; [destruct (metro_test lower flat)|]; done.
Qed.

Lemma for_handle_inserts flats :
  forall s,
    (forall f, f ∈ flats -> exists b, price_test f = Ret b) ->
    snd (for_ flats (handle_new_flat lower repr) s) = Ret tt
    /\ forall f, f ∈ flats ->
         flat_id f ∈ dom (flatlist (fst (fst (for_ flats (handle_new_flat lower repr) s)))).
Proof.
  induction flats as [|f0 flats IH]; intros s Hp; simpl.
  - split; [done|]. intros f Hf. by apply elem_of_nil in Hf.
  - destruct (Hp f0) as [b Hb]; [by left|].
    pose proof (handle_new_flat_returns f0 s b Hb) as Hr.
    pose proof (handle_new_flat_inserts f0 s) as Hi.
    unfold bind.
    destruct (handle_new_flat lower repr f0 s) as [s1 o]; simpl in *; subst o.
    destruct (IH s1) as [Hr' Hi']; [intros; apply Hp; by right|].
    split; [done|].
    intros f [->|Hf]%elem_of_cons; [|by apply Hi'].
    eapply evolves_dom; [|exact Hi].
    apply (stable_for evolves). apply evolves_handle_new_flat.
Qed.

Lemma fetch_url_inserts env url res flats s :
  http_get env url = Ret res ->
  get_flatlist env (snd res) = Ret flats ->
  (forall f, f ∈ flats -> exists b, price_test f = Ret b) ->
  forall f, f ∈ flats ->
    flat_id f ∈ dom (flatlist (fst (fst (fetch_url lower repr env url s)))).
Proof.
  intros H1 H2 Hp f Hf. unfold fetch_url.
  eapply evolves_dom; [apply (try_after evolves); intros e; apply evolves_logger|].
  unfold fetch_url_try.
  rewrite bind_logger, H1, bind_lift_ret, bind_logger, H2, bind_lift_ret.
  set (s2 := (_, _) : Sys).
  destruct (for_handle_inserts flats s2 Hp) as [Hr Hi].
  eapply evolves_dom; [|apply Hi, Hf].
  apply (bind_after evolves). intros _.
  apply stable_bind; [apply _|apply evolves_send_messages|intros _; apply evolves_logger].
Qed.

Lemma fetch_urls_inserts env urls url res flats s :
  url ∈ urls ->
  http_get env url = Ret res ->
  get_flatlist env (snd res) = Ret flats ->
  (forall f, f ∈ flats -> exists b, price_test f = Ret b) ->
  forall f, f ∈ flats ->
    flat_id f ∈ dom (flatlist (fst (fst (fetch_urls lower repr env urls s)))).
Proof.
  intros Hu H1 H2 Hp f Hf.
  apply list_elem_of_split in Hu as (pre & post & ->).
  unfold fetch_urls. rewrite for_app. unfold bind at 1.
  pose proof (fetch_urls_returns env pre s) as Hr. unfold fetch_urls in Hr.
  destruct (for_ pre (fetch_url lower repr env) s) as [sa o]; simpl in Hr; subst o.
  simpl.
  eapply evolves_dom; [apply (bind_after evolves); intros _; apply evolves_fetch_urls|].
  by eapply fetch_url_inserts.
Qed.

(** *** Notified ids are stored ids *)

#[local] Instance keeps_notified_stored_preorder : PreOrder keeps_notified_stored.
Proof. split; [by intros s H|]. intros s t r H1 H2 H. by apply H2, H1. Qed.

Lemma notified_stored_quiet s s' :
  flatlist (fst s') = flatlist (fst s) -> viewed (fst s') = viewed (fst s) ->
  keeps_notified_stored s s'.
Proof. intros Hf Hv H u vs. rewrite Hf, Hv. apply H. Qed.

Lemma notified_stored_handle_new_flat flat :
  stable keeps_notified_stored (handle_new_flat lower repr flat).
Proof.
  intros s H. rewrite handle_new_flat_eq.
  destruct (flatlist (fst s) !! flat_id flat) eqn:E; simpl; [done|].
  assert (Hins : notified_stored
                   (set_flatlist (fun m => <[flat_id flat := Live flat]> m) (fst s),
                    add_log (filters_log lower flat) (snd s))).
  { intros u vs Hu. simpl in *. rewrite dom_insert_L. specialize (H u vs Hu). set_solver. }
  destruct (accepts lower flat) as [[|]|e]; simpl; try done.
  intros u vs. simpl. rewrite lookup_fmap, dom_insert_L.
  destruct (viewed (fst s) !! u) as [vs0|] eqn:Hu; simpl; [|done].
  intros [= <-]. specialize (H u vs0 Hu).
  apply union_least; [|apply union_subseteq_l].
  etrans; [exact H|apply union_subseteq_r].
Qed.

Lemma notified_stored_start u : stable keeps_notified_stored (start u).
Proof.
  intros s H u' vs. simpl.
  destruct (decide (u' = u)) as [->|Hne].
  - rewrite lookup_insert_eq. intros [= <-]. apply empty_subseteq.
  - rewrite lookup_insert_ne by done. apply H.
Qed.

Lemma notified_stored_run ops s :
  notified_stored s -> notified_stored (run lower repr ops s).
Proof.
  apply (stable_run keeps_notified_stored).
  - intros r s0. by apply notified_stored_quiet.
  - apply notified_stored_handle_new_flat.
  - intros env s0. rewrite send_messages_eq. by apply notified_stored_quiet.
  - apply notified_stored_start.
  - intros u s0. rewrite fetch_messages_eq. by apply notified_stored_quiet.
Qed.

Lemma notified_stored_init w : notified_stored (init, w).
Proof. intros u vs. simpl. by rewrite lookup_empty. Qed.

(** *** What a cycle announces *)

#[local] Instance announces_preorder : PreOrder (announces lower repr).
Proof.
  split.
  - intros s. split; [done|]. split.
    + intros u vs Hu. exists vs. split; [done|]. intros i Hi. by left.
    + exists [], []. split; [split; simpl; by rewrite app_nil_r|].
      intros i v Hn Hs. congruence.
  - intros s s1 s2 (Hp1 & Hv1 & m1 & e1 & [Ha1 Hb1] & Hn1)
                   (Hp2 & Hv2 & m2 & e2 & [Ha2 Hb2] & Hn2).
    split; [intros i v Hi; by apply Hp2, Hp1|]. split.
    + intros u vs Hu. destruct (Hv1 u vs Hu) as (vs1 & Hu1 & Hg1).
      destruct (Hv2 u vs1 Hu1) as (vs2 & Hu2 & Hg2).
      exists vs2. split; [done|]. intros i Hi.
      destruct (Hg2 i Hi) as [Hi1|[Hnone [v Hv]]].
      * destruct (Hg1 i Hi1) as [?|[Hnone [v Hv]]]; [by left|].
        right. split; [done|]. exists v. by apply Hp2.
      * right. split; [|by exists v].
        destruct (flatlist (fst s) !! i) as [v0|] eqn:E; [|done].
        apply Hp1 in E. congruence.
    + exists (m1 ++ m2), (e1 ++ e2). split.
      { split; [by rewrite Ha2, Ha1, map_app, <- !app_assoc
               |by rewrite Hb2, Hb1, <- app_assoc]. }
      intros i v Hnone Hst.
      destruct (flatlist (fst s1) !! i) as [v1|] eqn:E1.
      * pose proof (Hp2 i v1 E1) as E2. rewrite Hst in E2. injection E2 as <-.
        destruct (Hn1 i v Hnone E1) as (f & Hv & Hid & Hmsg).
        exists f. split; [done|]. split; [done|]. intros Hacc u vs Hu Hi.
        rewrite !elem_of_app. destruct (Hmsg Hacc u vs Hu Hi). by split; left.
      * destruct (Hn2 i v E1 Hst) as (f & Hv & Hid & Hmsg).
        exists f. split; [done|]. split; [done|]. intros Hacc u vs Hu Hi.
        destruct (Hv1 u vs Hu) as (vs1 & Hu1 & Hg1).
        assert (Hi1 : i ∉ vs1).
        { intros Hin. destruct (Hg1 i Hin) as [?|[_ [v' Hv']]]; [done|congruence]. }
        rewrite !elem_of_app. destruct (Hmsg Hacc u vs1 Hu1 Hi1). by split; right.
Qed.

Lemma announces_quiet s s' :
  flatlist (fst s') = flatlist (fst s) ->
  viewed (fst s') = viewed (fst s) ->
  sent (snd s') ++ map call_of (scheduled_messages (fst s'))
  = sent (snd s) ++ map call_of (scheduled_messages (fst s)) ->
  enqueued (snd s') = enqueued (snd s) ->
  announces lower repr s s'.
Proof.
  intros Hf Hv Hp He. split; [by rewrite Hf|]. split.
  - intros u vs Hu. exists vs. rewrite Hv. split; [done|]. intros i Hi. by left.
  - exists [], []. split; [split; simpl; by rewrite ?Hp, ?He, app_nil_r|].
    intros i v Hn Hs. rewrite Hf in Hs. congruence.
Qed.

Lemma announces_handle_new_flat flat : stable (announces lower repr) (handle_new_flat lower repr flat).
Proof.
  intros s. rewrite handle_new_flat_eq.
  destruct (flatlist (fst s) !! flat_id flat) eqn:E; simpl; [reflexivity|].
  assert (Hins : forall i v, flatlist (fst s) !! i = Some v ->
                   <[flat_id flat := Live flat]> (flatlist (fst s)) !! i = Some v).
  { intros i v Hi. rewrite lookup_insert_ne; [done|]. intros <-. congruence. }
  assert (Hnew : forall i v,
             flatlist (fst s) !! i = None ->
             <[flat_id flat := Live flat]> (flatlist (fst s)) !! i = Some v ->
             i = flat_id flat /\ v = Live flat).
  { intros i v Hn Hs. destruct (decide (i = flat_id flat)) as [->|Hne].
    - rewrite lookup_insert_eq in Hs. by injection Hs as <-.
    - rewrite lookup_insert_ne in Hs by done. congruence. }
  assert (Hrej : accepts lower flat <> Ret true ->
            announces lower repr s (set_flatlist (fun m => <[flat_id flat := Live flat]> m) (fst s),
                         add_log (filters_log lower flat) (snd s))).
  { intros Hacc. split; [exact Hins|]. split.
    - intros u vs Hu. exists vs. split; [done|]. intros i Hi. by left.
    - exists [], []. split; [split; simpl; by rewrite app_nil_r|].
      intros i v Hn Hs. simpl in Hs. destruct (Hnew i v Hn Hs) as [-> ->].
      exists flat. split; [done|]. split; [done|]. intros Ha. done. }
  destruct (accepts lower flat) as [[|]|e] eqn:Hacc; simpl; [|by apply Hrej..].
  split; [exact Hins|]. split.
  - intros u vs Hu. exists (vs ∪ {[flat_id flat]}). simpl. rewrite lookup_fmap, Hu.
    split; [done|]. intros i [Hi|Hi%elem_of_singleton]%elem_of_union; [by left|].
    subst i. right. split; [done|]. rewrite lookup_insert_eq. by eexists.
  - exists (map (fun u => address u (flat_to_message repr flat))
                (recipients_of (flat_id flat) (viewed (fst s)))),
           (map (fun u => (u, flat_id flat)) (recipients_of (flat_id flat) (viewed (fst s)))).
    split; [split; simpl; [by rewrite map_app, app_assoc|done]|].
    intros i v Hn Hs. simpl in Hs. destruct (Hnew i v Hn Hs) as [-> ->].
    exists flat. split; [done|]. split; [done|]. intros _ u vs Hu Hi.
    assert (Hin : u ∈ recipients_of (flat_id flat) (viewed (fst s))).
    { unfold recipients_of, pending. apply list_elem_of_filter. rewrite Hu. split; [done|].
      apply list_elem_of_fmap. exists (u, vs). split; [done|]. by apply elem_of_map_to_list. }
    split; apply list_elem_of_fmap; by exists u.
Qed.

Lemma announces_send_messages env : stable (announces lower repr) (send_messages env).
Proof.
  intros s. rewrite send_messages_eq. apply announces_quiet; try done.
  simpl. rewrite <- app_assoc, <- map_app. by rewrite <- handed_prefix.
Qed.

Lemma announces_fetch_cian env : stable (announces lower repr) (fetch_cian lower repr env).
Proof.
  apply (stable_fetch_cian (announces lower repr)).
  - intros r s. by apply announces_quiet.
  - apply announces_handle_new_flat.
  - apply announces_send_messages.
Qed.

(** *** A flush, call by call *)

Lemma calls_succeed_cons env h m ms :
  calls_succeed env h (m :: ms) ->
  transport env h (call_of m) = None /\ calls_succeed env (h ++ [call_of m]) ms.
Proof.
  intros H. split.
  - specialize (H 0%nat m eq_refl). simpl in H. by rewrite app_nil_r in H.
  - intros k m' Hk. specialize (H (S k) m' Hk). simpl in H. by rewrite <- app_assoc.
Qed.

Lemma handed_at_failure env before msg rest e :
  forall h,
    calls_succeed env h before ->
    transport env (h ++ map call_of before) (call_of msg) = Some e ->
    handed env h (before ++ msg :: rest) = before ++ [msg]
    /\ flush_error env h (before ++ msg :: rest) = Some e.
Proof.
  induction before as [|m before IH]; intros h Hok Hfail; simpl in *.
  - rewrite app_nil_r in Hfail. by rewrite Hfail.
  - apply calls_succeed_cons in Hok as [H0 Hok]. rewrite H0.
    destruct (IH (h ++ [call_of m]) Hok) as [H1 H2].
    { by rewrite <- app_assoc. }
    by rewrite H1, H2.
Qed.

Lemma handed_no_failure env q :
  forall h, calls_succeed env h q -> handed env h q = q /\ flush_error env h q = None.
Proof.
  induction q as [|m q IH]; intros h Hok; simpl; [done|].
  apply calls_succeed_cons in Hok as [H0 Hok]. rewrite H0.
  destruct (IH _ Hok) as [H1 H2]. by rewrite H1, H2.
Qed.

Lemma send_messages_failure env s before msg rest e :
  scheduled_messages (fst s) = before ++ msg :: rest ->
  calls_succeed env (sent (snd s)) before ->
  transport env (sent (snd s) ++ map call_of before) (call_of msg) = Some e ->
  send_messages env s = (flushed s (before ++ [msg]) rest, Raise e).
Proof.
  intros Hq Hok Hfail. rewrite send_messages_eq, Hq.
  destruct (handed_at_failure env before msg rest e _ Hok Hfail) as [H1 H2].
  rewrite H1, H2. unfold flushed, set_scheduled_messages. simpl. rewrite Hq.
  rewrite H1, (cons_middle msg before rest), app_assoc, drop_app_length. done.
Qed.

Lemma send_messages_success env s :
  calls_succeed env (sent (snd s)) (scheduled_messages (fst s)) ->
  send_messages env s = (flushed s (scheduled_messages (fst s)) [], Ret tt).
Proof.
  intros Hok. rewrite send_messages_eq.
  destruct (handed_no_failure env _ _ Hok) as [H1 H2]. rewrite H1, H2.
  unfold flushed, set_scheduled_messages. simpl. by rewrite ?H1, drop_all.
Qed.

(** ** The claims *)

(** A call of [handle_new_flat] that notifies nobody. *)
Ltac no_recipients :=
  exists []; simpl; rewrite !app_nil_r;
  (split; [apply NoDup_nil_2|]); (split; [done|]); (split; [done|]);
  let u := fresh "u" in let Hu := fresh "Hu" in
  intros u Hu; by apply elem_of_nil in Hu.

(** C1. No duplicate notification. Along any sequence of operations
    ([handle_new_flat] and [fetch_messages], and also [start],
    [send_messages] and [fetch_cian]) no pair (recipient, listing id) is
    enqueued twice. A call of [handle_new_flat] appends to the queue one
    message for each pair it enqueues, only for recipients whose notified set
    lacks the id, and adds the id to their sets; a call of [fetch_messages]
    enqueues nothing. *)
Theorem no_duplicate_notification :
  (forall ops s,
      exists evs,
        enqueued (snd (run lower repr ops s)) = enqueued (snd s) ++ evs /\ NoDup evs)
  /\ (forall flat s,
        let s' := fst (handle_new_flat lower repr flat s) in
        exists us,
          NoDup us
          /\ enqueued (snd s') = enqueued (snd s) ++ map (fun u => (u, flat_id flat)) us
          /\ scheduled_messages (fst s')
             = scheduled_messages (fst s)
               ++ map (fun u => address u (flat_to_message repr flat)) us
          /\ (forall u, u ∈ us ->
                (flat_id flat ∉ default ∅ (viewed (fst s) !! u))
                /\ (flat_id flat ∈ default ∅ (viewed (fst s') !! u))))
  /\ (forall u s,
        let s' := fst (fetch_messages lower u s) in
        enqueued (snd s') = enqueued (snd s)
        /\ scheduled_messages (fst s') = scheduled_messages (fst s)
        /\ viewed (fst s') = viewed (fst s)).
Proof.
  split; [|split].
  - intros ops s. destruct (evolves_run ops s) as (_ & _ & _ & _ & evs & He & Hn & _).
    by exists evs.
  - intros flat s. simpl. rewrite handle_new_flat_eq.
    destruct (flatlist (fst s) !! flat_id flat) eqn:E; simpl.
    { no_recipients. }
    destruct (accepts lower flat) as [[|]|e]; simpl; [|no_recipients..].
    exists (recipients_of (flat_id flat) (viewed (fst s))).
    split; [apply NoDup_recipients_of|]. split; [done|]. split; [done|].
    intros u [Hu Hin]%list_elem_of_filter. split; [done|].
    apply list_elem_of_fmap in Hin as [[u' vs] [-> Hin]]. simpl in *.
    apply elem_of_map_to_list in Hin. rewrite lookup_fmap, Hin. simpl. set_solver.
  - intros u s. simpl. by rewrite fetch_messages_eq.
Qed.

(** C3. Idempotent insert. Once a listing is stored under its id, a further
    [handle_new_flat] for that id, whatever attributes it carries, changes
    nothing at all: the stored listing stays the first one, nothing is
    logged by a filter, nothing is enqueued, no notified set changes. The
    call returns also for a listing on which a filter would raise: no filter
    is evaluated. *)
Theorem insert_first_write_wins flat1 flat2 s :
  flat_id flat2 = flat_id flat1 ->
  flatlist (fst s) !! flat_id flat1 = None ->
  let s1 := fst (handle_new_flat lower repr flat1 s) in
  flatlist (fst s1) !! flat_id flat1 = Some (Live flat1)
  /\ handle_new_flat lower repr flat2 s1 = (s1, Ret tt)
  /\ (forall s' v, flatlist (fst s') !! flat_id flat2 = Some v ->
        handle_new_flat lower repr flat2 s' = (s', Ret tt)).
Proof.
  intros Hid Hnew. simpl.
  assert (Hknown : forall s' v, flatlist (fst s') !! flat_id flat2 = Some v ->
                     handle_new_flat lower repr flat2 s' = (s', Ret tt)).
  { intros s' v Hv. by rewrite handle_new_flat_eq, Hv. }
  assert (Hst : flatlist (fst (fst (handle_new_flat lower repr flat1 s))) !! flat_id flat1
                = Some (Live flat1)).
  { rewrite handle_new_flat_eq, Hnew. simpl.
    destruct (accepts lower flat1) as [[|]|e]; simpl; by rewrite lookup_insert_eq. }
  split; [done|]. split; [|done].
  eapply Hknown. rewrite Hid. exact Hst.
Qed.


(** C5, as the code has it. [start] makes the notified set of the recipient
    empty, whatever it held. A listing notified before is a stored listing,
    and [handle_new_flat] returns for a stored id before it looks at any
    notified set: whatever operations follow the [start], the next cycle
    among them, they enqueue nothing about the listing. *)
Theorem start_resets_and_stored_listing_stays_silent ops u i vs s :
  notified_stored s ->
  viewed (fst s) !! u = Some vs ->
  i ∈ vs ->
  let s1 := fst (start u s) in
  let s2 := run lower repr ops s1 in
  viewed (fst s1) !! u = Some ∅
  /\ (forall flat, flat_id flat = i -> handle_new_flat lower repr flat s1 = (s1, Ret tt))
  /\ exists evs,
       enqueued (snd s2) = enqueued (snd s) ++ evs /\ forall u', (u', i) ∉ evs.
Proof.
  intros Hinv Hu Hi. simpl.
  assert (Hdom : i ∈ dom (flatlist (fst s))) by (by apply (Hinv u vs Hu)).
  split; [by rewrite lookup_insert_eq|]. split.
  - intros flat <-. rewrite handle_new_flat_eq. simpl.
    apply elem_of_dom in Hdom as [v Hv]. by rewrite Hv.
  - destruct (evolves_run ops (fst (start u s))) as (_ & _ & _ & _ & evs & He & _ & Hf).
    exists evs. split; [exact He|]. intros u' Hin. by apply Hf in Hin as [Hn _].
Qed.

(** C6. Filter gating. [flat_ok] returns the conjunction of the tests of its
    filters, taken in order, and changes nothing but the log; what it logs
    does not enter the result. A listing that a filter rejects is not
    enqueued by [handle_new_flat], for no recipient, and no notified set
    changes. *)
Theorem filter_gating flat s :
  snd (flat_ok lower flat s) = accepts lower flat
  /\ (forall b, price_test flat = Ret b ->
        snd (flat_ok lower flat s) = Ret (b && metro_test lower flat))
  /\ fst (flat_ok lower flat s) = (fst s, add_log (filters_log lower flat) (snd s))
  /\ (forall t, snd (flat_ok lower flat t) = snd (flat_ok lower flat s))
  /\ (forall f t,
        f ∈ filters lower ->
        snd (f_run f flat t) = Ret false ->
        let s' := fst (handle_new_flat lower repr flat s) in
        scheduled_messages (fst s') = scheduled_messages (fst s)
        /\ enqueued (snd s') = enqueued (snd s)
        /\ viewed (fst s') = viewed (fst s)).
Proof.
  rewrite flat_ok_eq. simpl. split; [done|]. split.
  { intros b Hb. unfold accepts. rewrite Hb. by destruct b. }
  split; [done|]. split; [intros t; by rewrite flat_ok_eq|].
  intros f t Hf Hrej.
  assert (Hacc : accepts lower flat <> Ret true).
  { unfold filters in Hf. apply elem_of_cons in Hf as [->|Hf].
    - simpl in Hrej. unfold filter_price_per_person, bind, lift in Hrej. simpl in Hrej.
      unfold accepts, price_test.
      destruct (ppp_le_35000 (price flat) (rooms flat)) as [[|]|e]; simpl in *; done.
    - apply elem_of_cons in Hf as [->|Hf]; [|by apply elem_of_nil in Hf].
      simpl in Hrej. unfold filter_metro, bind in Hrej.
      unfold accepts. destruct (price_test flat) as [[|]|e]; try done.
      destruct (metro_test lower flat); simpl in *; [done|]. done. }
  rewrite handle_new_flat_eq.
  destruct (flatlist (fst s) !! flat_id flat); [done|]. simpl.
  destruct (accepts lower flat) as [[|]|e]; done.
Qed.

(** The loop of [flat_ok] over any list of filters whose results are
    booleans: the result is their conjunction. *)
Lemma run_filters_conjunction (fs : list Filter) (p : Filter -> bool) flat :
  (forall f, f ∈ fs -> forall s, snd (f_run f flat s) = Ret (p f)) ->
  forall s, snd (run_filters fs flat s) = Ret (forallb p fs).
Proof.
  induction fs as [|f fs IH]; intros Hp s; simpl; [done|].
  unfold bind at 1. pose proof (Hp f ltac:(by left) s) as Hf.
  destruct (f_run f flat s) as [s1 o]; simpl in Hf; subst o.
  destruct (p f); simpl; [apply IH; intros; apply Hp; by right|done].
Qed.

(** C7, as the code has it. A flush hands the messages to the transport in
    the order of the queue. When the call for a message fails, after the
    calls for the messages before it have succeeded, the flush ends there:
    the exception leaves [send_messages], the message of the failed call has
    left the queue, the messages behind it are the queue, in their order and
    without a call. When no call fails the queue is drained and
    [send_messages] returns. When the flush of a cycle fails so, the handler
    of the current URL logs the exception and the iteration for the URL
    returns, with the messages behind the failed one still queued. *)
Theorem flush_stops_at_first_failure env s before msg rest e :
  scheduled_messages (fst s) = before ++ msg :: rest ->
  calls_succeed env (sent (snd s)) before ->
  transport env (sent (snd s) ++ map call_of before) (call_of msg) = Some e ->
  send_messages env s = (flushed s (before ++ [msg]) rest, Raise e)
  /\ (forall s1,
        calls_succeed env (sent (snd s1)) (scheduled_messages (fst s1)) ->
        send_messages env s1 = (flushed s1 (scheduled_messages (fst s1)) [], Ret tt))
  /\ (forall url res flats s0,
        http_get env url = Ret res ->
        get_flatlist env (snd res) = Ret flats ->
        for_ flats (handle_new_flat lower repr)
          (fst s0, add_log [InfoStatus url (fst res)] (add_log [InfoFetching url] (snd s0)))
        = (s, Ret tt) ->
        fetch_url lower repr env url s0
        = ((fst (flushed s (before ++ [msg]) rest),
            add_log [FatalFailedFetching url e] (snd (flushed s (before ++ [msg]) rest))),
           Ret tt)).
Proof.
  intros Hq Hok Hfail.
  pose proof (send_messages_failure env s before msg rest e Hq Hok Hfail) as Hs.
  split; [exact Hs|]. split; [intros s1; apply send_messages_success|].
  intros url res flats s0 H1 H2 Hfor.
  unfold fetch_url, try_except, fetch_url_try.
  rewrite bind_logger, H1, bind_lift_ret, bind_logger, H2, bind_lift_ret.
  simpl fst. simpl snd. unfold bind at 1. rewrite Hfor.
  unfold bind at 1. rewrite Hs. done.
Qed.

(** C8. [fetch_messages] as written raises before it enqueues, marks or
    sends anything: [AttributeError] at [f.id] when a listing is stored,
    [TypeError] at [self.send_messages()] when none is. Only the log
    changes. *)
Theorem fetch_messages_raises u s :
  fetch_messages lower u s
  = ((fst s,
      add_log (InfoAsksForMessages u
               :: if decide (flatlist (fst s) = ∅) then [InfoSendingAsRequested] else [])
              (snd s)),
     Raise (if decide (flatlist (fst s) = ∅) then TypeError else AttributeError)).
Proof. apply fetch_messages_eq. Qed.

(** C9, as the code has it. When the state cannot be written at the end of a
    cycle, the exception leaves [fetch_cian]. The bot is the one the loop
    over the URLs has produced; the last record of the log is the
    announcement of the backup. *)
Theorem persistence_failure_propagates env s e :
  observed_urls (fst s) <> [] ->
  write_state env ".cian-backup"
    (asdict_state (fst (fst (fetch_urls lower repr env (observed_urls (fst s)) s)))) = Some e ->
  let sl := fst (fetch_urls lower repr env (observed_urls (fst s)) s) in
  fetch_cian lower repr env s
  = ((fst sl, add_log [InfoSavingBackup] (snd sl)), Raise e).
Proof.
  intros Hne Hw. simpl. rewrite (fetch_cian_eq env s Hne). simpl. by rewrite Hw.
Qed.

(** C10. [start] for chat [u] sets the notified set of [u] to the empty set
    and writes one log record. The listing store, the notified sets of the
    other recipients, the source URLs and the queue are as before, and a
    flush after [start] makes the calls it would have made without it. *)
Theorem start_frame env u s :
  let s' := fst (start u s) in
  snd (start u s) = Ret tt
  /\ viewed (fst s') = <[u := ∅]> (viewed (fst s))
  /\ (forall u', u' <> u -> viewed (fst s') !! u' = viewed (fst s) !! u')
  /\ flatlist (fst s') = flatlist (fst s)
  /\ flat_details (fst s') = flat_details (fst s)
  /\ observed_urls (fst s') = observed_urls (fst s)
  /\ scheduled_messages (fst s') = scheduled_messages (fst s)
  /\ sent (snd s') = sent (snd s)
  /\ enqueued (snd s') = enqueued (snd s)
  /\ log (snd s') = log (snd s) ++ [InfoConnected u]
  /\ snd (send_messages env s') = snd (send_messages env s)
  /\ sent (snd (fst (send_messages env s'))) = sent (snd (fst (send_messages env s)))
  /\ scheduled_messages (fst (fst (send_messages env s')))
     = scheduled_messages (fst (fst (send_messages env s))).
Proof.
  simpl. repeat split; try done.
  - intros u' Hne. by rewrite lookup_insert_ne.
  - by rewrite !send_messages_eq.
  - by rewrite !send_messages_eq.
  - by rewrite !send_messages_eq.
Qed.

End Properties.

(** ** The claims on the sample data *)

Example flat_A_later_raises :
  snd (flat_ok lower_ru flat_A_later (bot_two, world0)) = Raise ZeroDivisionError.
Proof. reflexivity. Qed.

(** The scenario of the specification: of the two listings of [url_a] only
    listing 1 passes the price test; it is enqueued once for each of the two
    recipients, listing 2 is stored and not notified. *)
Example scenario_one_cycle :
  let s := sys_notified in
  enqueued (snd s) ≡ₚ [(KInt 7, KInt 1); (KInt 8, KInt 1)]
  /\ map fst (map_to_list (flatlist (fst s))) ≡ₚ [KInt 1; KInt 2]
  /\ viewed (fst s) = {[ KInt 7 := {[ KInt 1 ]}; KInt 8 := {[ KInt 1 ]} ]}
  /\ length (sent (snd s)) = 2%nat
  /\ scheduled_messages (fst s) = [].
Proof.
  simpl. split; [|split; [|split; [by vm_compute|split; by vm_compute]]].
  - assert (enqueued (snd sys_notified) = [(KInt 7, KInt 1); (KInt 8, KInt 1)]) as ->
      by (by vm_compute).
    done.
  - assert (map fst (map_to_list (flatlist (fst sys_notified))) = [KInt 2; KInt 1]) as ->
      by (by vm_compute).
    apply Permutation_swap.
Qed.

Lemma notified_stored_bot_two urls w : notified_stored (with_urls urls bot_two, w).
Proof.
  intros u vs H. simpl in H.
  apply lookup_insert_Some in H as [[_ <-]|[_ H]]; [apply empty_subseteq|].
  apply lookup_singleton_Some in H as [_ <-]. apply empty_subseteq.
Qed.

Lemma insert_first_write_wins_witness :
  let s1 := fst (handle_new_flat lower_ru repr_quote flat_A (bot_two, world0)) in
  flatlist (fst s1) !! KInt 1 = Some (Live flat_A)
  /\ handle_new_flat lower_ru repr_quote flat_A_later s1 = (s1, Ret tt).
Proof.
  destruct (insert_first_write_wins lower_ru repr_quote flat_A flat_A_later
              (bot_two, world0) eq_refl eq_refl) as (H1 & H2 & _).
  split; [exact H1|exact H2].
Defined.


Lemma flush_stops_at_first_failure_witness :
  send_messages env_send_fails sys_two_queued
  = (flushed sys_two_queued
       [address (KInt 7) (flat_to_message repr_quote flat_A)]
       [address (KInt 8) (flat_to_message repr_quote flat_A)],
     Raise (External "NetworkError")).
Proof.
  apply (flush_stops_at_first_failure lower_ru repr_quote env_send_fails sys_two_queued
           [] (address (KInt 7) (flat_to_message repr_quote flat_A))
           [address (KInt 8) (flat_to_message repr_quote flat_A)]
           (External "NetworkError")).
  - by vm_compute.
  - intros k m Hk. by destruct k.
  - reflexivity.
Defined.

Lemma start_resets_and_stored_listing_stays_silent_witness :
  let s1 := fst (start (KInt 7) sys_notified) in
  let s2 := fst (fetch_cian lower_ru repr_quote env_ok s1) in
  viewed (fst s1) !! KInt 7 = Some ∅
  /\ handle_new_flat lower_ru repr_quote flat_A s1 = (s1, Ret tt)
  /\ exists evs,
       enqueued (snd s2) = enqueued (snd sys_notified) ++ evs
       /\ forall u', (u', KInt 1) ∉ evs.
Proof.
  assert (Hv : viewed (fst sys_notified) !! KInt 7 = Some {[ KInt 1 ]}) by (by vm_compute).
  destruct (start_resets_and_stored_listing_stays_silent lower_ru repr_quote
              [FetchCian env_ok] (KInt 7) (KInt 1) {[ KInt 1 ]} sys_notified)
    as (H1 & H2 & H3).
  - apply notified_stored_run, notified_stored_bot_two.
  - exact Hv.
  - by apply elem_of_singleton.
  - split; [exact H1|]. split; [by apply H2|exact H3].
Defined.

Lemma persistence_failure_propagates_witness :
  let s := (with_urls [url_a] bot_two, world0) in
  let sl := fst (fetch_urls lower_ru repr_quote env_disk_full [url_a] s) in
  fetch_cian lower_ru repr_quote env_disk_full s
  = ((fst sl, add_log [InfoSavingBackup] (snd sl)), Raise (External "OSError")).
Proof.
  apply (persistence_failure_propagates lower_ru repr_quote env_disk_full
           (with_urls [url_a] bot_two, world0) (External "OSError")).
  - discriminate.
  - reflexivity.
Defined.


(** C5 as stated fails: recipient 7 was notified of listing 1, the listing
    passes the filters, the recipient issues [start], the next cycle fetches
    the listing again, and no message about it is enqueued for 7. *)
Lemma redelivery_counterexample :
  viewed (fst sys_notified) !! KInt 7 = Some {[ KInt 1 ]}
  /\ accepts lower_ru flat_A = Ret true
  /\ observed_urls (fst sys_notified) = [url_a]
  /\ get_flatlist env_ok url_a = Ret [flat_A; flat_B]
  /\ ~ redelivered lower_ru repr_quote env_ok (KInt 7) (KInt 1) sys_notified.
Proof.
  split; [by vm_compute|]. split; [by vm_compute|]. split; [by vm_compute|].
  split; [by vm_compute|].
  intros (evs & He & Hin).
  assert (Hsame : enqueued (snd (fst (fetch_cian lower_ru repr_quote env_ok
                                        (fst (start (KInt 7) sys_notified)))))
                  = enqueued (snd (fst (start (KInt 7) sys_notified)))) by (by vm_compute).
  rewrite Hsame in He.
  rewrite <- (app_nil_r (enqueued _)) in He at 1.
  apply app_inv_head in He. subst evs. by apply elem_of_nil in Hin.
Qed.

(** C7 as stated fails: with two messages queued and a transport whose first
    call fails, the flush leaves the second message in the queue and makes
    no call for it. *)
Lemma flush_counterexample :
  length (scheduled_messages (fst sys_two_queued)) = 2%nat
  /\ length (sent (snd (fst (send_messages env_send_fails sys_two_queued)))) = 1%nat
  /\ ~ flush_drains env_send_fails sys_two_queued.
Proof.
  split; [by vm_compute|]. split; [by vm_compute|].
  intros [H _]. vm_compute in H. discriminate.
Qed.

(** C9 as stated fails: when the state cannot be written, [fetch_cian]
    raises. *)
Lemma persistence_counterexample :
  ~ survives_persistence_failure lower_ru repr_quote env_disk_full
      (with_urls [url_a] bot_two, world0).
Proof.
  unfold survives_persistence_failure. intros H. vm_compute in H. discriminate.
Qed.

(** C8 on a backlog: listing 1 is stored and passes the filters, recipient 9
    has just started and has not been notified of it; [fetch_messages] for 9
    raises and enqueues nothing. *)
Example fetch_messages_backlog :
  let s := fst (start (KInt 9) sys_notified) in
  let r := fetch_messages lower_ru (KInt 9) s in
  accepts lower_ru flat_A = Ret true
  /\ viewed (fst s) !! KInt 9 = Some ∅
  /\ snd r = Raise AttributeError
  /\ scheduled_messages (fst (fst r)) = []
  /\ enqueued (snd (fst r)) = enqueued (snd s)
  /\ sent (snd (fst r)) = sent (snd s).
Proof. simpl. repeat split; by vm_compute. Qed.

(** * Further properties of the code *)

Section Further.

Variable lower : string -> string.
Variable repr : string -> string.

(** *** What a run keeps *)

#[local] Instance persists_preorder : PreOrder persists.
Proof.
  split.
  - intros s. by repeat split.
  - intros s s1 s2 (Ha1 & Hb1 & Hc1 & Hd1) (Ha2 & Hb2 & Hc2 & Hd2).
    split; [intros i v Hi; by apply Ha2, Ha1|].
    split; [by etrans|]. split; congruence.
Qed.

Lemma persists_quiet s s' :
  flatlist (fst s') = flatlist (fst s) ->
  viewed (fst s') = viewed (fst s) ->
  observed_urls (fst s') = observed_urls (fst s) ->
  flat_details (fst s') = flat_details (fst s) ->
  persists s s'.
Proof. intros Hf Hv Hu Hd. unfold persists. rewrite Hf, Hv, Hu, Hd. by repeat split. Qed.

Lemma persists_handle_new_flat flat : stable persists (handle_new_flat lower repr flat).
Proof.
  intros s. rewrite handle_new_flat_eq.
  destruct (flatlist (fst s) !! flat_id flat) eqn:E; simpl; [reflexivity|].
  assert (Hins : forall i v, flatlist (fst s) !! i = Some v ->
                   <[flat_id flat := Live flat]> (flatlist (fst s)) !! i = Some v).
  { intros i v Hi. rewrite lookup_insert_ne; [done|]. intros <-. congruence. }
  destruct (accepts lower flat) as [[|]|e]; simpl; (split; [exact Hins|]);
    (split; [|done]); simpl; [|done..].
  by rewrite dom_fmap_L.
Qed.

Lemma persists_start u : stable persists (start u).
Proof.
  intros s. split; [done|]. split; [|done]. simpl. rewrite dom_insert_L.
  apply union_subseteq_r.
Qed.

Lemma persists_run ops s : persists s (run lower repr ops s).
Proof.
  apply (stable_run lower repr persists).
  - intros r s0. by apply persists_quiet.
  - apply persists_handle_new_flat.
  - intros env s0. rewrite send_messages_eq. by apply persists_quiet.
  - apply persists_start.
  - intros u s0. rewrite fetch_messages_eq. by apply persists_quiet.
Qed.

(** X1. The store is append-only. Along any run a stored listing stays
    stored with the value it has, a registered recipient stays registered,
    and the source URLs and the listing details are not touched. *)
Theorem store_is_append_only ops s :
  let s' := run lower repr ops s in
  (forall i v, flatlist (fst s) !! i = Some v -> flatlist (fst s') !! i = Some v)
  /\ dom (viewed (fst s)) ⊆ dom (viewed (fst s'))
  /\ observed_urls (fst s') = observed_urls (fst s)
  /\ flat_details (fst s') = flat_details (fst s).
Proof. apply persists_run. Qed.

(** *** Notified sets grow *)

#[local] Instance sets_grow_preorder : PreOrder sets_grow.
Proof.
  split.
  - intros s u vs H. by exists vs.
  - intros s s1 s2 H1 H2 u vs Hu.
    destruct (H1 u vs Hu) as (vs1 & Hu1 & Hs1).
    destruct (H2 u vs1 Hu1) as (vs2 & Hu2 & Hs2).
    exists vs2. split; [done|]. by etrans.
Qed.

Lemma sets_grow_quiet s s' : viewed (fst s') = viewed (fst s) -> sets_grow s s'.
Proof. intros Hv u vs Hu. exists vs. by rewrite Hv. Qed.

Lemma sets_grow_handle_new_flat flat : stable sets_grow (handle_new_flat lower repr flat).
Proof.
  intros s. rewrite handle_new_flat_eq.
  destruct (flatlist (fst s) !! flat_id flat); [reflexivity|]. simpl.
  destruct (accepts lower flat) as [[|]|e]; simpl; try by apply sets_grow_quiet.
  intros u vs Hu. exists (vs ∪ {[flat_id flat]}). simpl.
  rewrite lookup_fmap, Hu. split; [done|]. apply union_subseteq_l.
Qed.

(** A run without [start]. *)
Lemma run_without_start (R : Sys -> Sys -> Prop) `{!PreOrder R} :
  (forall r, stable R (logger r)) ->
  (forall flat, stable R (handle_new_flat lower repr flat)) ->
  (forall env, stable R (send_messages env)) ->
  (forall u, stable R (fetch_messages lower u)) ->
  forall ops, forallb (fun o => negb (is_start o)) ops = true ->
  forall s, R s (run lower repr ops s).
Proof.
  intros Hl Hh Hs Hf. induction ops as [|o ops IH]; intros Hops s; simpl; [reflexivity|].
  simpl in Hops. apply andb_prop in Hops as [Ho Hops].
  etrans; [|by apply IH].
  destruct o; simpl in *; try done; try apply Hh; try apply Hf; try apply Hs.
  by apply stable_fetch_cian.
Qed.

(** X2. Between two [start]s the notified sets only grow: along a run
    without [start], every recipient keeps every id of its set. *)
Theorem notified_sets_grow_without_start ops s :
  forallb (fun o => negb (is_start o)) ops = true ->
  forall u vs,
    viewed (fst s) !! u = Some vs ->
    exists vs', viewed (fst (run lower repr ops s)) !! u = Some vs' /\ vs ⊆ vs'.
Proof.
  intros Hops. apply (run_without_start sets_grow); try done.
  - intros r s0. by apply sets_grow_quiet.
  - apply sets_grow_handle_new_flat.
  - intros env s0. rewrite send_messages_eq. by apply sets_grow_quiet.
  - intros u s0. rewrite fetch_messages_eq. by apply sets_grow_quiet.
Qed.

(** *** First in, first out *)

#[local] Instance fifo_preorder : PreOrder fifo.
Proof.
  split.
  - intros s. exists [], []. simpl. by rewrite !app_nil_r.
  - intros s s1 s2 (m1 & e1 & Hp1 & He1 & Hc1) (m2 & e2 & Hp2 & He2 & Hc2).
    exists (m1 ++ m2), (e1 ++ e2).
    rewrite Hp2, Hp1, He2, He1, !map_app, <- !app_assoc, Hc1, Hc2. done.
Qed.

Lemma fifo_quiet s s' :
  pipeline s' = pipeline s -> enqueued (snd s') = enqueued (snd s) -> fifo s s'.
Proof. intros Hp He. exists [], []. simpl. by rewrite Hp, He, !app_nil_r. Qed.

Lemma fifo_handle_new_flat flat : stable fifo (handle_new_flat lower repr flat).
Proof.
  intros s. rewrite handle_new_flat_eq.
  destruct (flatlist (fst s) !! flat_id flat); [reflexivity|]. simpl.
  destruct (accepts lower flat) as [[|]|e]; simpl; try by apply fifo_quiet.
  exists (map (fun u => address u (flat_to_message repr flat))
              (recipients_of (flat_id flat) (viewed (fst s)))),
         (map (fun u => (u, flat_id flat)) (recipients_of (flat_id flat) (viewed (fst s)))).
  unfold pipeline; simpl. rewrite map_app, app_assoc. split; [done|]. split; [done|].
  rewrite !map_map. done.
Qed.

Lemma fifo_send_messages env : stable fifo (send_messages env).
Proof.
  intros s. rewrite send_messages_eq. apply fifo_quiet; [|done].
  unfold pipeline; simpl. rewrite <- app_assoc, <- map_app.
  by rewrite <- handed_prefix.
Qed.

(** X3. Messages reach the transport first in, first out, each once: along
    any run, the calls made so far followed by the calls of the queued
    messages form one list that only grows at its end, by one message for
    each pair enqueued. No operation drops a queued message without a call
    for it, makes a call twice, or reorders the queue. *)
Theorem transport_calls_are_first_in_first_out ops s :
  let s' := run lower repr ops s in
  exists msgs evs,
    sent (snd s') ++ map call_of (scheduled_messages (fst s'))
    = (sent (snd s) ++ map call_of (scheduled_messages (fst s))) ++ map call_of msgs
    /\ enqueued (snd s') = enqueued (snd s) ++ evs
    /\ map chat_id msgs = map fst evs.
Proof.
  apply (stable_run lower repr fifo).
  - intros r s0. by apply fifo_quiet.
  - apply fifo_handle_new_flat.
  - apply fifo_send_messages.
  - intros u s0. by apply fifo_quiet.
  - intros u s0. rewrite fetch_messages_eq. by apply fifo_quiet.
Qed.

(** X4. In every state the bot reaches from its initial state, every id in a
    notified set is the id of a stored listing. *)
Theorem reachable_notified_ids_are_stored ops w :
  forall u vs,
    viewed (fst (run lower repr ops (init, w))) !! u = Some vs ->
    vs ⊆ dom (flatlist (fst (run lower repr ops (init, w)))).
Proof. apply notified_stored_run, notified_stored_init. Qed.

(** *** One call of [handle_new_flat] *)

(** X5. A new listing that passes the filters is stored, and every recipient
    whose notified set lacks its id gets exactly one message, in one batch at
    the end of the queue; no such recipient is left out, no other gets a
    message. Afterwards the id is in the set of every recipient. The log and
    the transport are not touched. *)
Theorem new_accepted_listing_notifies_each_pending_recipient flat s :
  flatlist (fst s) !! flat_id flat = None ->
  accepts lower flat = Ret true ->
  let s' := fst (handle_new_flat lower repr flat s) in
  snd (handle_new_flat lower repr flat s) = Ret tt
  /\ flatlist (fst s') = <[flat_id flat := Live flat]> (flatlist (fst s))
  /\ (forall u, viewed (fst s') !! u
                = (fun vs => vs ∪ {[flat_id flat]}) <$> viewed (fst s) !! u)
  /\ log (snd s') = log (snd s)
  /\ sent (snd s') = sent (snd s)
  /\ exists us,
       NoDup us
       /\ (forall u, u ∈ us <->
              exists vs, viewed (fst s) !! u = Some vs /\ flat_id flat ∉ vs)
       /\ scheduled_messages (fst s')
          = scheduled_messages (fst s)
            ++ map (fun u => address u (flat_to_message repr flat)) us
       /\ enqueued (snd s') = enqueued (snd s) ++ map (fun u => (u, flat_id flat)) us.
Proof.
  intros Hnew Hacc. simpl. rewrite handle_new_flat_eq, Hnew, Hacc. simpl.
  split; [done|]. split; [done|]. split; [intros u; by rewrite lookup_fmap|].
  split; [done|]. split; [done|].
  exists (recipients_of (flat_id flat) (viewed (fst s))).
  split; [apply NoDup_recipients_of|]. split; [|done].
  intros u. unfold recipients_of, pending. rewrite list_elem_of_filter, list_elem_of_fmap.
  split.
  - intros [Hu [[u' vs] [-> Hin]]]. simpl in *.
    apply elem_of_map_to_list in Hin. rewrite Hin in Hu. by exists vs.
  - intros (vs & Hvs & Hi). rewrite Hvs. split; [done|].
    exists (u, vs). split; [done|]. by apply elem_of_map_to_list.
Qed.

(** X6. A new listing without rooms: the price filter raises
    [ZeroDivisionError] after the listing has been stored. Nothing is
    logged, enqueued or marked, the exception leaves [handle_new_flat], and
    every later call for the id returns at once: the listing is never
    notified. *)
Theorem listing_without_rooms_is_stored_and_silenced flat s :
  rooms flat = 0 ->
  flatlist (fst s) !! flat_id flat = None ->
  let s' := (set_flatlist (fun m => <[flat_id flat := Live flat]> m) (fst s), snd s) in
  handle_new_flat lower repr flat s = (s', Raise ZeroDivisionError)
  /\ forall flat', flat_id flat' = flat_id flat ->
       handle_new_flat lower repr flat' s' = (s', Ret tt).
Proof.
  intros Hr Hnew. simpl.
  assert (Hacc : accepts lower flat = Raise ZeroDivisionError).
  { unfold accepts, price_test, ppp_le_35000. by rewrite Hr. }
  assert (Hlog : filters_log lower flat = []).
  { unfold filters_log, price_test, ppp_le_35000. by rewrite Hr. }
  split.
  - rewrite handle_new_flat_eq, Hnew, Hacc. simpl. by rewrite Hlog, add_log_nil.
  - intros flat' Hid. rewrite handle_new_flat_eq, Hid. simpl.
    by rewrite lookup_insert_eq.
Qed.

(** X7. The price filter on usual numbers: for a positive number of rooms
    below [2^38] and a price of magnitude below [2^1000] the filter returns
    whether the price is at most 35000 per room, logs the listing exactly
    when it rejects it, and changes nothing else. *)
Theorem price_filter_threshold flat s :
  0 < rooms flat < 2 ^ 38 ->
  Z.abs (price flat) < 2 ^ 1000 ->
  filter_price_per_person flat s
  = ((fst s,
      add_log (if bool_decide (price flat <= 35000 * rooms flat) then []
               else [DebugPriceTest (flat_id flat) (price flat) (rooms flat)])
              (snd s)),
     Ret (bool_decide (price flat <= 35000 * rooms flat))).
Proof.
  intros Hr Hp. unfold filter_price_per_person, bind, lift. simpl.
  rewrite (ppp_le_35000_exact _ _ Hr Hp).
  destruct (bool_decide (price flat <= 35000 * rooms flat)); simpl.
  - unfold ret. by rewrite add_log_nil; destruct s.
  - done.
Qed.

(** *** The cycle *)

(** X8. Only a failure of the persistence step leaves [fetch_cian]: every
    exception of a fetch, of the parser, of a filter or of the transport is
    caught inside the loop. Without source URLs the cycle writes one log
    record and does nothing else; it does not save. *)
Theorem only_persistence_failure_leaves_the_cycle env s :
  match snd (fetch_cian lower repr env s) with
  | Ret _ => True
  | Raise e =>
      observed_urls (fst s) <> []
      /\ write_state env ".cian-backup"
           (asdict_state (fst (fst (fetch_cian lower repr env s)))) = Some e
  end
  /\ (observed_urls (fst s) = [] ->
      fetch_cian lower repr env s = ((fst s, add_log [InfoNoUrls] (snd s)), Ret tt)).
Proof.
  destruct (observed_urls (fst s)) as [|url urls] eqn:Hu.
  - assert (He : fetch_cian lower repr env s = ((fst s, add_log [InfoNoUrls] (snd s)), Ret tt)).
    { unfold fetch_cian, bind, gets. simpl. by rewrite Hu. }
    rewrite He. by split.
  - split; [|done].
    rewrite (fetch_cian_eq lower repr env s) by (by rewrite Hu). simpl.
    destruct (write_state env ".cian-backup" _) as [e|] eqn:Hw; simpl; [|done].
    split; [done|exact Hw].
Qed.

(** *** Which URLs a cycle fetches *)

#[local] Instance no_fetch_preorder : PreOrder no_fetch.
Proof.
  split.
  - intros s. exists []. by rewrite app_nil_r.
  - intros s s1 s2 (l1 & Hl1 & Hf1) (l2 & Hl2 & Hf2).
    exists (l1 ++ l2). rewrite Hl2, Hl1, app_assoc. split; [done|].
    unfold fetched in *. by rewrite omap_app, Hf1, Hf2.
Qed.

Lemma no_fetch_add_log b w w' l :
  log w' = log w ++ l -> fetched l = [] -> no_fetch (b, w) (b, w').
Proof. intros Hl Hf. by exists l. Qed.

Lemma no_fetch_handle_new_flat flat : stable no_fetch (handle_new_flat lower repr flat).
Proof.
  intros s. rewrite handle_new_flat_eq.
  destruct (flatlist (fst s) !! flat_id flat); [reflexivity|]. simpl.
  assert (Hf : fetched (filters_log lower flat) = []).
  { unfold filters_log. destruct (price_test flat) as [[|]|e]; try done.
    by destruct (metro_test lower flat). }
  destruct (accepts lower flat) as [[|]|e]; simpl.
  - exists []. simpl. by rewrite app_nil_r.
  - by exists (filters_log lower flat).
  - by exists (filters_log lower flat).
Qed.

Lemma no_fetch_send_messages env : stable no_fetch (send_messages env).
Proof.
  intros s. rewrite send_messages_eq. eexists. split; [done|].
  unfold fetched. by induction (handed env _ _).
Qed.

Lemma no_fetch_logger r :
  (forall url, r <> InfoFetching url) -> stable no_fetch (logger r).
Proof.
  intros Hr s. exists [r]. split; [done|]. destruct r; try done. by destruct (Hr url).
Qed.

Lemma fetch_url_log env url s :
  exists l,
    log (snd (fst (fetch_url lower repr env url s))) = log (snd s) ++ InfoFetching url :: l
    /\ fetched l = [].
Proof.
  unfold fetch_url, fetch_url_try.
  set (k := fun _ : unit => bind (lift (http_get env url)) _).
  set (h := fun e => logger (FatalFailedFetching url e)).
  assert (Hk : stable no_fetch (try_except (k tt) h)).
  { apply stable_try; [apply _| |intros e; by apply no_fetch_logger].
    unfold k.
    apply stable_bind; [apply _|by apply (stable_skip no_fetch)|intros res].
    apply stable_bind; [apply _|by apply no_fetch_logger|intros _].
    apply stable_bind; [apply _|by apply (stable_skip no_fetch)|intros flats].
    apply stable_bind; [apply _|apply stable_for; [apply _|apply no_fetch_handle_new_flat]
                       |intros _].
    apply stable_bind; [apply _|apply no_fetch_send_messages|intros _].
    by apply no_fetch_logger. }
  destruct (Hk (fst s, add_log [InfoFetching url] (snd s))) as (l & Hl & Hf).
  exists l. split; [|done].
  change (try_except (bind (logger (InfoFetching url)) k) h s)
    with (try_except (k tt) h (fst s, add_log [InfoFetching url] (snd s))).
  rewrite Hl. simpl. by rewrite <- app_assoc.
Qed.

Lemma fetch_urls_log env urls :
  forall s,
    exists l,
      log (snd (fst (fetch_urls lower repr env urls s))) = log (snd s) ++ l
      /\ fetched l = urls.
Proof.
  unfold fetch_urls. induction urls as [|url urls IH]; intros s; simpl.
  - exists []. by rewrite app_nil_r.
  - unfold bind. pose proof (fetch_url_returns lower repr env url s) as Hr.
    destruct (fetch_url_log env url s) as (l1 & Hl1 & Hf1).
    destruct (fetch_url lower repr env url s) as [s1 o]; simpl in *; subst o.
    destruct (IH s1) as (l2 & Hl2 & Hf2).
    exists (InfoFetching url :: l1 ++ l2). rewrite Hl2, Hl1, <- app_assoc. split; [done|].
    unfold fetched in *. simpl. by rewrite omap_app, Hf1, Hf2.
Qed.

(** X9. A cycle starts a fetch for every source URL, once for each entry of
    [observed_urls] and in the order of the list, whatever the fetches, the
    parser, the filters and the transport do in between: no failure ends the
    loop early, and no URL is tried again. *)
Theorem cycle_fetches_each_url_once_in_order env s :
  exists l,
    log (snd (fst (fetch_cian lower repr env s))) = log (snd s) ++ l
    /\ fetched l = observed_urls (fst s).
Proof.
  destruct (observed_urls (fst s)) as [|url urls] eqn:Hu.
  - exists [InfoNoUrls]. split; [|done].
    unfold fetch_cian, bind, gets. simpl. by rewrite Hu.
  - rewrite (fetch_cian_eq lower repr env s) by (by rewrite Hu). simpl.
    destruct (fetch_urls_log env (observed_urls (fst s)) s) as (l & Hl & Hf).
    rewrite Hu in Hf.
    destruct (write_state env ".cian-backup" _); simpl; rewrite Hl, <- app_assoc;
      eexists; (split; [done|]); unfold fetched in *; rewrite omap_app, Hf; simpl;
      by rewrite app_nil_r.
Qed.

Lemma fetch_url_flushes env url res flats s :
  (forall h c, transport env h c = None) ->
  http_get env url = Ret res ->
  get_flatlist env (snd res) = Ret flats ->
  (forall f, f ∈ flats -> exists b, price_test f = Ret b) ->
  scheduled_messages (fst (fst (fetch_url lower repr env url s))) = [].
Proof.
  intros Hok H1 H2 Hp. unfold fetch_url, try_except, fetch_url_try.
  rewrite bind_logger, H1, bind_lift_ret, bind_logger, H2, bind_lift_ret.
  set (s2 := (_, _) : Sys).
  destruct (for_handle_inserts lower repr flats s2 Hp) as [Hr _].
  unfold bind at 1.
  destruct (for_ flats (handle_new_flat lower repr) s2) as [s3 o]; simpl in Hr; subst o.
  unfold bind at 1. rewrite send_messages_eq, (flush_error_reliable env _ Hok).
  simpl.
  rewrite (handed_all env _ _ (flush_error_reliable env _ Hok _)).
  by rewrite drop_all.
Qed.

(** X10. When the transport does not fail and the last source URL is
    processed without an exception (its fetch and its parse succeed and the
    price test raises on none of its listings), the cycle ends with an empty
    queue: every message enqueued so far has been handed to the transport. *)
Theorem cycle_ends_with_empty_queue env s pre last res flats :
  observed_urls (fst s) = pre ++ [last] ->
  (forall h c, transport env h c = None) ->
  http_get env last = Ret res ->
  get_flatlist env (snd res) = Ret flats ->
  (forall f, f ∈ flats -> exists b, price_test f = Ret b) ->
  scheduled_messages (fst (fst (fetch_cian lower repr env s))) = [].
Proof.
  intros Hurls Hok H1 H2 Hp.
  assert (Hq : scheduled_messages
                 (fst (fst (fetch_urls lower repr env (observed_urls (fst s)) s))) = []).
  { rewrite Hurls. unfold fetch_urls. rewrite for_app. unfold bind at 1.
    pose proof (fetch_urls_returns lower repr env pre s) as Hr. unfold fetch_urls in Hr.
    destruct (for_ pre (fetch_url lower repr env) s) as [sa o]; simpl in Hr; subst o.
    simpl. unfold bind.
    pose proof (fetch_url_returns lower repr env last sa) as Hr.
    pose proof (fetch_url_flushes env last res flats sa Hok H1 H2 Hp) as Hf.
    destruct (fetch_url lower repr env last sa) as [sb o]; simpl in *; subst o. done. }
  rewrite (fetch_cian_eq lower repr env s) by (rewrite Hurls; by destruct pre).
  simpl. by destruct (write_state env ".cian-backup" _).
Qed.

(** X11. A stored listing is never announced again: whatever operations run,
    no message about a listing that is in the store is enqueued, for
    nobody. A recipient who starts after a listing was stored does not hear
    of it from any later cycle. *)
Theorem stored_listing_is_never_announced ops s i :
  i ∈ dom (flatlist (fst s)) ->
  exists evs,
    enqueued (snd (run lower repr ops s)) = enqueued (snd s) ++ evs
    /\ forall u, (u, i) ∉ evs.
Proof.
  intros Hi. destruct (evolves_run lower repr ops s) as (_ & _ & _ & _ & evs & He & _ & Hf).
  exists evs. split; [done|]. intros u Hin. by apply Hf in Hin as [Hn _].
Qed.

(** *** After a reload *)

(** X12. [json] writes every dict key as a string, so a loaded bot has no
    integer key: no listing id and no chat id that is an int is found in it.
    A listing with an integer id is therefore new to a freshly loaded bot,
    also when it was stored before the state was saved: [handle_new_flat]
    stores it under the int and evaluates the filters again. *)
Theorem loaded_bot_has_no_integer_key x n flat w :
  flat_id flat = KInt n ->
  flatlist (from_directory x) !! KInt n = None
  /\ viewed (from_directory x) !! KInt n = None
  /\ flat_details (from_directory x) !! KInt n = None
  /\ flatlist (fst (fst (handle_new_flat lower repr flat (from_directory x, w))))
       !! KInt n = Some (Live flat)
  /\ snd (handle_new_flat lower repr flat (from_directory x, w))
     = match accepts lower flat with Raise e => Raise e | Ret _ => Ret tt end.
Proof.
  intros Hid.
  assert (Hk : forall V (m : gmap string V),
             (kmap KStr m : gmap pykey V) !! KInt n = None).
  { intros V m. apply lookup_kmap_None; [apply _|]. intros i [=]. }
  assert (Hf : flatlist (from_directory x) !! KInt n = None) by apply Hk.
  split; [done|]. split; [apply Hk|]. split; [apply Hk|].
  rewrite <- Hid in *.
  pose proof (handle_new_flat_eq lower repr flat (from_directory x, w)) as He.
  unfold fst at 1 in He. rewrite Hf in He. rewrite He.
  destruct (accepts lower flat) as [[|]|e]; simpl; by rewrite lookup_insert_eq.
Qed.

End Further.

(** Reading back what [save] writes for a dict whose keys have different
    strings. *)
Lemma json_object_dump_lookup {V W} (f : V -> W) (m : gmap pykey V) k v :
  (forall k1 k2, k1 ∈ dom m -> k2 ∈ dom m -> key_str k1 = key_str k2 -> k1 = k2) ->
  m !! k = Some v ->
  json_object (map (fun kv => (key_str (fst kv), f (snd kv))) (map_to_list m)) !! key_str k
  = Some (f v).
Proof.
  intros Hinj Hk. unfold json_object. apply elem_of_list_to_map.
  - rewrite fmap_reverse, reverse_Permutation.
    change (map ?g ?l) with (g <$> l). rewrite <- list_fmap_compose.
    apply NoDup_fmap_2_strong; [|apply NoDup_map_to_list].
    intros [k1 v1] [k2 v2] H1 H2 Heq. simpl in Heq.
    apply elem_of_map_to_list in H1, H2.
    assert (k1 = k2) as -> by (apply Hinj; [by apply elem_of_dom_2 in H1
                                           |by apply elem_of_dom_2 in H2|done]).
    congruence.
  - apply elem_of_reverse, list_elem_of_fmap. exists (k, v). split; [done|].
    by apply elem_of_map_to_list.
Qed.

(** X13. What survives a restart. For a bot whose recipients have integer chat
    ids, saving and loading keeps every notified set: recipient [n] is found
    under the string [str(n)] with the ids it had. The queue and the source
    URLs are read back as they were. *)
Theorem reload_keeps_notified_sets b n vs :
  (forall k, k ∈ dom (viewed b) -> exists m, k = KInt m) ->
  viewed b !! KInt n = Some vs ->
  let b' := from_directory (asdict_state b) in
  viewed b' !! KStr (pretty n) = Some vs
  /\ scheduled_messages b' = scheduled_messages b
  /\ observed_urls b' = observed_urls b.
Proof.
  intros Hint Hn. simpl. split; [|done].
  rewrite lookup_kmap, lookup_fmap.
  rewrite (json_object_dump_lookup elements (viewed b) (KInt n) vs); [| |done].
  - simpl. f_equal. apply list_to_set_elements_L.
  - intros k1 k2 H1 H2 Heq.
    destruct (Hint k1 H1) as [m1 ->], (Hint k2 H2) as [m2 ->]. simpl in Heq.
    f_equal. by apply (inj pretty).
  - apply _.
Qed.

(** *** Observing a source *)

Lemma sorted_set_sorted urls : StronglySorted String.le (sorted_set urls).
Proof. apply StronglySorted_merge_sort; apply _. Qed.

Lemma sorted_set_perm urls : sorted_set urls ≡ₚ remove_dups urls.
Proof. apply merge_sort_Permutation. Qed.

Lemma sorted_set_NoDup urls : NoDup (sorted_set urls).
Proof. rewrite sorted_set_perm. apply NoDup_remove_dups. Qed.

Lemma elem_of_sorted_set urls x : x ∈ sorted_set urls <-> x ∈ urls.
Proof. rewrite sorted_set_perm. apply elem_of_remove_dups. Qed.

(** Two lists of URLs with the same members have the same [sorted_set]. *)
Lemma sorted_set_ext l1 l2 :
  (forall x, x ∈ l1 <-> x ∈ l2) -> sorted_set l1 = sorted_set l2.
Proof.
  intros H. apply (StronglySorted_unique String.le); try apply sorted_set_sorted.
  apply NoDup_Permutation; try apply sorted_set_NoDup.
  intros x. by rewrite !elem_of_sorted_set.
Qed.

(** A list that is sorted and has no duplicates is its own [sorted_set]. *)
Lemma sorted_set_id l : StronglySorted String.le l -> NoDup l -> sorted_set l = l.
Proof.
  intros Hs Hn. apply (StronglySorted_unique String.le); [apply sorted_set_sorted|done|].
  apply NoDup_Permutation; [apply sorted_set_NoDup|done|].
  intros x. apply elem_of_sorted_set.
Qed.

(** X14. [observe_url] with one argument: afterwards [observed_urls] is sorted
    in the order of str, has no duplicate, and holds the URLs it held before
    and the new one, nothing else. The rest of the bot is unchanged and one
    job with a delay of five seconds is handed to the job queue. All this is
    done before the reply is sent, so it holds also when the reply fails. *)
Theorem observe_url_keeps_urls_sorted_and_unique reply u url st :
  let r := observe_url reply u [url] st in
  let b := fst (fst st) in
  let b' := fst (fst (fst r)) in
  StronglySorted String.le (observed_urls b')
  /\ NoDup (observed_urls b')
  /\ (forall x, x ∈ observed_urls b' <-> x ∈ observed_urls b \/ x = url)
  /\ b' = with_urls (observed_urls b') b
  /\ snd (fst (fst r)) = snd (fst st)
  /\ jobs (snd (fst r)) = jobs (snd st) ++ [(5, u)]
  /\ snd r = match reply (replies (snd st)) ("Observing " ++ url)%string with
             | Some e => Raise e
             | None => Ret tt
             end.
Proof.
  simpl. unfold observe_url.
  destruct (reply (replies (snd st)) ("Observing " ++ url)%string); simpl;
    (split; [apply sorted_set_sorted|]); (split; [apply sorted_set_NoDup|]);
    (split; [|done]); intros x; rewrite elem_of_sorted_set, elem_of_app, list_elem_of_singleton;
    done.
Qed.

(** X15. Observing is idempotent and does not depend on the order: observing
    a URL that is observed already leaves the list as it is when the list is
    sorted and without duplicates (as [observe_url] leaves it), and two URLs
    observed in either order give the same list. *)
Theorem observe_url_is_idempotent_and_commutes reply1 reply2 u1 u2 a b st :
  observed_urls (fst (fst (fst
    (observe_url reply2 u2 [a] (fst (observe_url reply1 u1 [a] st))))))
  = observed_urls (fst (fst (fst (observe_url reply1 u1 [a] st))))
  /\ observed_urls (fst (fst (fst
       (observe_url reply2 u2 [b] (fst (observe_url reply1 u1 [a] st))))))
     = observed_urls (fst (fst (fst
         (observe_url reply1 u1 [a] (fst (observe_url reply2 u2 [b] st))))))
  /\ (StronglySorted String.le (observed_urls (fst (fst st))) ->
      NoDup (observed_urls (fst (fst st))) ->
      a ∈ observed_urls (fst (fst st)) ->
      observed_urls (fst (fst (fst (observe_url reply1 u1 [a] st))))
      = observed_urls (fst (fst st))).
Proof.
  assert (Hu : forall reply u x st0,
             observed_urls (fst (fst (fst (observe_url reply u [x] st0))))
             = sorted_set (observed_urls (fst (fst st0)) ++ [x])).
  { intros reply u x st0. unfold observe_url.
    by destruct (reply (replies (snd st0)) ("Observing " ++ x)%string). }
  rewrite !Hu. split; [|split].
  - apply sorted_set_ext. intros x.
    rewrite !elem_of_app, elem_of_sorted_set, elem_of_app. tauto.
  - apply sorted_set_ext. intros x.
    rewrite !elem_of_app, !elem_of_sorted_set, !elem_of_app. tauto.
  - intros Hs Hn Ha. rewrite <- (sorted_set_id _ Hs Hn) at 2.
    apply sorted_set_ext. intros x. rewrite elem_of_app, list_elem_of_singleton.
    split; [intros [?| ->]; done|by left].
Qed.

(** X16. [observe_url] with no argument or with more than one: the bot, its
    source URLs among it, and the job queue are left as they are; the
    synopsis is the one reply asked for. *)
Theorem observe_url_wrong_arity_changes_nothing reply u args st :
  length args <> 1%nat ->
  let r := observe_url reply u args st in
  fst (fst r) = fst st
  /\ jobs (snd (fst r)) = jobs (snd st)
  /\ replies (snd (fst r)) = replies (snd st) ++ [synopsis]
  /\ snd r = match reply (replies (snd st)) synopsis with
             | Some e => Raise e
             | None => Ret tt
             end.
Proof.
  intros Hlen. simpl. unfold observe_url.
  destruct args as [|a [|a' args]]; [|done|];
    by destruct (reply (replies (snd st)) synopsis).
Qed.

(** ** The further properties on the sample data *)

Example observe_two_sources :
  observed_urls
    (fst (fst (fst (observe_url reply_ok (KInt 7) [url_a]
       (fst (observe_url reply_ok (KInt 7) [url_down]
          ((bot_two, world0), dispatcher0)))))))
  = [url_a; url_down].
Proof. by vm_compute. Qed.

Lemma store_and_sets_witness_state :
  viewed (fst sys_notified) !! KInt 7 = Some {[ KInt 1 ]}.
Proof. by vm_compute. Qed.

Lemma notified_sets_grow_without_start_witness :
  exists vs',
    viewed (fst (run lower_ru repr_quote [FetchCian env_ok; SendMessages env_ok]
                   sys_notified)) !! KInt 7 = Some vs'
    /\ {[ KInt 1 ]} ⊆ vs'.
Proof.
  apply (notified_sets_grow_without_start lower_ru repr_quote
           [FetchCian env_ok; SendMessages env_ok] sys_notified eq_refl
           (KInt 7) {[ KInt 1 ]}).
  apply store_and_sets_witness_state.
Defined.

Lemma reachable_notified_ids_are_stored_witness :
  ({[ KInt 1 ]} : gset pykey)
  ⊆ dom (flatlist (fst (run lower_ru repr_quote
                          [Start (KInt 7); HandleNewFlat flat_A] (init, world0)))).
Proof.
  apply (reachable_notified_ids_are_stored lower_ru repr_quote
           [Start (KInt 7); HandleNewFlat flat_A] world0 (KInt 7)).
  by vm_compute.
Defined.

Lemma new_accepted_listing_notifies_each_pending_recipient_witness :
  let r := handle_new_flat lower_ru repr_quote flat_A (bot_two, world0) in
  snd r = Ret tt
  /\ flatlist (fst (fst r)) = <[ KInt 1 := Live flat_A ]> ∅.
Proof.
  destruct (new_accepted_listing_notifies_each_pending_recipient lower_ru repr_quote
              flat_A (bot_two, world0)) as (H1 & H2 & _).
  - by vm_compute.
  - by vm_compute.
  - split; [exact H1|exact H2].
Defined.

Lemma listing_without_rooms_is_stored_and_silenced_witness :
  snd (handle_new_flat lower_ru repr_quote flat_A_later (bot_two, world0))
  = Raise ZeroDivisionError.
Proof.
  destruct (listing_without_rooms_is_stored_and_silenced lower_ru repr_quote
              flat_A_later (bot_two, world0) eq_refl eq_refl) as [H _].
  by rewrite H.
Defined.

Lemma price_filter_threshold_witness :
  snd (filter_price_per_person flat_B (bot_two, world0)) = Ret false.
Proof.
  rewrite (price_filter_threshold flat_B (bot_two, world0)).
  - reflexivity.
  - by vm_compute.
  - by vm_compute.
Defined.

Lemma stored_listing_is_never_announced_witness :
  exists evs,
    enqueued (snd (run lower_ru repr_quote [Start (KInt 9); FetchCian env_ok] sys_notified))
    = enqueued (snd sys_notified) ++ evs
    /\ forall u, (u, KInt 1) ∉ evs.
Proof.
  apply (stored_listing_is_never_announced lower_ru repr_quote
           [Start (KInt 9); FetchCian env_ok] sys_notified (KInt 1)).
  apply elem_of_dom. exists (Live flat_A). by vm_compute.
Defined.

Lemma cycle_ends_with_empty_queue_witness :
  scheduled_messages
    (fst (fst (fetch_cian lower_ru repr_quote env_ok (with_urls [url_a] bot_two, world0))))
  = [].
Proof.
  apply (cycle_ends_with_empty_queue lower_ru repr_quote env_ok
           (with_urls [url_a] bot_two, world0) [] url_a (200, url_a) [flat_A; flat_B]).
  - reflexivity.
  - reflexivity.
  - reflexivity.
  - reflexivity.
  - intros f [->|[->|Hf]%elem_of_cons]%elem_of_cons.
    + by exists true.
    + by exists false.
    + by apply elem_of_nil in Hf.
Defined.

Lemma loaded_bot_has_no_integer_key_witness :
  flatlist (from_directory (asdict_state (fst sys_notified))) !! KInt 1 = None
  /\ flatlist (from_directory (asdict_state (fst sys_notified))) !! KStr "1"
     = Some (Loaded (flat_asdict flat_A)).
Proof.
  destruct (loaded_bot_has_no_integer_key lower_ru repr_quote
              (asdict_state (fst sys_notified)) 1 flat_A world0 eq_refl) as (H & _).
  split; [exact H|by vm_compute].
Defined.

Lemma reload_keeps_notified_sets_witness :
  viewed (from_directory (asdict_state (fst sys_notified))) !! KStr "7"
  = Some {[ KInt 1 ]}.
Proof.
  destruct (reload_keeps_notified_sets (fst sys_notified) 7 {[ KInt 1 ]}) as (H & _).
  - assert (Hd : dom (viewed (fst sys_notified)) = {[ KInt 7; KInt 8 ]}) by (by vm_compute).
    intros k. rewrite Hd. intros [->%elem_of_singleton| ->%elem_of_singleton]%elem_of_union;
      by eexists.
  - apply store_and_sets_witness_state.
  - exact H.
Defined.

Lemma observe_url_wrong_arity_changes_nothing_witness :
  let r := observe_url reply_missing (KInt 7) [] ((bot_two, world0), dispatcher0) in
  fst (fst r) = (bot_two, world0)
  /\ jobs (snd (fst r)) = []
  /\ snd r = Raise AttributeError.
Proof.
  destruct (observe_url_wrong_arity_changes_nothing reply_missing (KInt 7) []
              ((bot_two, world0), dispatcher0)) as (H1 & H2 & _ & H4).
  - discriminate.
  - split; [exact H1|]. split; [exact H2|exact H4].
Defined.
